(** * argparse: the parsing engine, its actions and its namespace

    A shallow embedding of [parsing.go], [parser.go], [namespace.go] and of
    [argument.go]. Two revisions of the built-in actions are embedded: the
    functions of the revision in which [ArgumentAction] is a function type,
    and the named actions of the revision that introduces [createValue]. A
    later revision moves the conversion of the values into the actions; it
    is left out.

    - A Go [interface{}] is a [value]; [nil] is [VNil] and a
      [[]interface{}] stored in an interface is [VSlice].
    - A [Namespace] ([map[string]interface{}]) is a [gmap string value].
      The Go map is shared and mutated in place, so every operation
      returns the map as it is after the call, also when it fails.
    - A [*Argument] is the record together with the address it was
      allocated at ([addr]); [getOptionals] compares addresses only.
    - Go iterates a map in an unspecified order: [getOptionals] takes the
      order in which the keys of [Optionals] are visited as an argument.
    - A run-time panic (a slice bound out of range) is the result [Panic].
*)

From Stdlib Require Import ZArith Ascii String.
From stdpp Require Import base option list gmap strings fin_maps sorting.

Local Open Scope Z_scope.
Set Warnings "-register-all,-clear-no-such-hyp".

(** ** Values and errors *)

Inductive value : Type :=
| VNil
| VBool (b : bool)
| VInt (z : Z)
| VString (s : string)
| VSlice (vs : list value).

(** The errors the engine and the actions build with [errors.Errorf]; each
    constructor stands for one format string of the source. *)
Inductive error : Type :=
| UnexpectedArgument (arg : string)      (* "unexpected argument: %q" *)
| MissingRequired (dest : string)        (* "missing required argument %q" *)
| ExpectedZeroValues (dest : string) (n : nat)
                                         (* "argument %q expected 0 values, not %d" *)
| ExpectedOneOrMore                      (* "expected one or more arguments but got zero." *)
| NotEnoughValues (dest : string)        (* "not enough values for argument %q" *)
| ExpectedAtLeastOne (dest : string)     (* "expected at least one value for argument %q" *)
| AlreadySet (dest : string) (v : value) (* "argument %q already defined with value %v." *)
| NoValuesExpected (dest : string) (n : nat)
                                         (* "no values expected for argument %q but got %d" *)
| UnexpectedType (v : value)             (* errors.NewUnexpectedType(false, v) *)
| InvalidChoice (arg dest : string)      (* "invalid choice %q for %v" *)
| ValueParserError (arg : string)        (* the error a ValueParser returns *)
| TypeFailed (cause : error).            (* "%v failed", wrapping its cause *)

Inductive res (A : Type) : Type :=
| Ret (a : A)
| Fail (e : error)
| Panic.
Arguments Ret {A} a.
Arguments Fail {A} e.
Arguments Panic {A}.

(** ** The argument model (argument.go) *)

(** [type ValueParser func(v string) (interface{}, error)]; [None] is the
    parser's error. *)
Definition ValueParser : Type := string -> option value.

(** The converters the examples use; [String] is the one [AddArgument]
    fills in. *)
Module Conv.

Definition String (v : string) : option value := Some (VString v).

End Conv.

Record Choice : Type := { Key : string; Value : value }.

Record ArgumentChoices : Type := {
  items : list Choice;
  index : gmap string nat
}.

Fixpoint newChoices_index (i : nat) (choices : list Choice)
    (idx : gmap string nat) : gmap string nat :=
  match choices with
  | [] => idx
  | c :: cs => newChoices_index (S i) cs (<[Key c := i]> idx)
  end.

Definition newChoices (choices : list Choice) : ArgumentChoices :=
  {| items := choices; index := newChoices_index 0 choices ∅ |}.

Definition Load (cs : ArgumentChoices) (key : string) : option value :=
  match index cs !! key with
  | None => None
  | Some i => Value <$> items cs !! i
  end.

(** The built-in actions; which function each one runs is decided by the
    action table below. *)
Inductive ArgumentAction : Type :=
| Append
| Store
| StoreTrue
| StoreFalse.

Definition OneOrMore : Z := -1.
Definition ZeroOrMore : Z := -2.
Definition ZeroOrOne : Z := -3.

Definition isValidNarg (v : Z) : bool := ZeroOrOne <=? v.

(** The fields of [Argument] the engine reads. [Help], [MetaVar] and the
    back pointer [parser] only serve the help output and the bindings.
    [AddArgument] fills [Action] and [Type] when they are nil, so they are
    total here. *)
Record Argument : Type := {
  addr : nat;
  Action : ArgumentAction;
  Const : value;
  Default : value;
  Dest : string;
  Nargs : Z;
  OptionStrings : list string;
  Required : bool;
  Type_ : ValueParser;
  Choices : option ArgumentChoices
}.

Definition HasPrefix_dash (s : string) : bool :=
  match s with
  | String c _ => bool_decide (c = "-"%char)
  | EmptyString => false
  end.

Definition Optional (a : Argument) : bool := existsb HasPrefix_dash (OptionStrings a).

(** [createValue]: a choice set replaces the type conversion. *)
Definition createValue (a : Argument) (arg : string) : res value :=
  match Choices a with
  | Some cs =>
      match Load cs arg with
      | None => Fail (InvalidChoice arg (Dest a))
      | Some v => Ret v
      end
  | None =>
      match Type_ a arg with
      | Some v => Ret v
      | None => Fail (ValueParserError arg)
      end
  end.

(** ** The namespace (namespace.go) *)

Module Namespace.

Definition Get (ns : gmap string value) (a : Argument) : option value :=
  ns !! Dest a.

Definition Set_ (ns : gmap string value) (a : Argument) (v : value)
    : gmap string value :=
  <[Dest a := v]> ns.

(** [Append]: an existing slice is extended, an existing value of another
    type becomes the first element. *)
Definition Append (ns : gmap string value) (a : Argument) (vs : list value)
    : gmap string value :=
  let values :=
    match ns !! Dest a with
    | Some (VSlice existing) => existing
    | Some existing => [existing]
    | None => []
    end in
  <[Dest a := VSlice (values ++ vs)]> ns.

End Namespace.

(** ** The actions *)

(** [getArgValueForNS], written inline in the first revision's [Store]. *)
Definition getArgValueForNS (a : Argument) (vs : list value) : value :=
  match vs with
  | [v] => if Nargs a =? 1 then v else VSlice vs
  | _ => VSlice vs
  end.

(** The revision in which [ArgumentAction] is a function type: the actions
    are the package-level functions [Append], [Store], [StoreTrue] and
    [StoreFalse]. *)
Module FuncAction.

Definition Append (a : Argument) (ns : gmap string value) (vs : list value)
    : res unit * gmap string value :=
  (Ret tt, Namespace.Append ns a vs).

Definition Store (a : Argument) (ns : gmap string value) (vs : list value)
    : res unit * gmap string value :=
  match Namespace.Get ns a with
  | Some v => (Fail (AlreadySet (Dest a) v), ns)
  | None =>
      let v := match vs with
               | [v0] => if Nargs a =? 1 then v0 else VSlice vs
               | _ => VSlice vs
               end in
      (Ret tt, Namespace.Set_ ns a v)
  end.

Definition StoreTrue (a : Argument) (ns : gmap string value) (vs : list value)
    : res unit * gmap string value :=
  if (0 <? length vs)%nat then (Fail (NoValuesExpected (Dest a) (length vs)), ns)
  else (Ret tt, Namespace.Set_ ns a (VBool true)).

Definition StoreFalse (a : Argument) (ns : gmap string value) (vs : list value)
    : res unit * gmap string value :=
  if (0 <? length vs)%nat then (Fail (NoValuesExpected (Dest a) (length vs)), ns)
  else (Ret tt, Namespace.Set_ ns a (VBool false)).

End FuncAction.

(** The revision in which [ArgumentAction] is an interface and the actions
    are registered by name in the [actions] table. *)
Module NamedAction.

Definition Append (a : Argument) (ns : gmap string value) (vs : list value)
    : res unit * gmap string value :=
  (Ret tt, Namespace.Append ns a [getArgValueForNS a vs]).

Definition Store (a : Argument) (ns : gmap string value) (vs : list value)
    : res unit * gmap string value :=
  match Namespace.Get ns a with
  | Some v => (Fail (AlreadySet (Dest a) v), ns)
  | None => (Ret tt, Namespace.Set_ ns a (getArgValueForNS a vs))
  end.

Definition StoreTrue (a : Argument) (ns : gmap string value) (vs : list value)
    : res unit * gmap string value :=
  match vs with
  | [VBool b] => (Ret tt, Namespace.Set_ ns a (VBool b))
  | [v] => (Fail (UnexpectedType v), ns)
  | _ => (Fail (NoValuesExpected (Dest a) (length vs)), ns)
  end.

Definition StoreFalse (a : Argument) (ns : gmap string value) (vs : list value)
    : res unit * gmap string value :=
  if (0 <? length vs)%nat then (Fail (NoValuesExpected (Dest a) (length vs)), ns)
  else (Ret tt, Namespace.Set_ ns a (VBool false)).

End NamedAction.

(** Which revision of the actions the engine calls. *)
Inductive ActionTable : Type := funcActions | namedActions.

(** [a.Action(a, ns, vs)]. *)
Definition callAction (T : ActionTable) (a : Argument)
    (ns : gmap string value) (vs : list value) : res unit * gmap string value :=
  match T, Action a with
  | funcActions, Append => FuncAction.Append a ns vs
  | funcActions, Store => FuncAction.Store a ns vs
  | funcActions, StoreTrue => FuncAction.StoreTrue a ns vs
  | funcActions, StoreFalse => FuncAction.StoreFalse a ns vs
  | namedActions, Append => NamedAction.Append a ns vs
  | namedActions, Store => NamedAction.Store a ns vs
  | namedActions, StoreTrue => NamedAction.StoreTrue a ns vs
  | namedActions, StoreFalse => NamedAction.StoreFalse a ns vs
  end.

(** ** The parser (parser.go) *)

Record ArgumentParser : Type := {
  Optionals : gmap string Argument;
  Positionals : list Argument
}.

(** [alphaNumRegexp = "[0-9A-Za-z]+"]: the class is ASCII, so a byte of a
    multi-byte rune never matches and the string is read byte by byte. *)
Definition isAlphaNum (c : ascii) : bool :=
  let n := Z.of_N (N_of_ascii c) in
  ((48 <=? n) && (n <=? 57)) || ((65 <=? n) && (n <=? 90)) || ((97 <=? n) && (n <=? 122)).

(** [alphaNumRegexp.FindAllString(op, -1)]: the successive maximal runs of
    matching characters; [cur] is the run being read. *)
Fixpoint FindAllString_from (cur : string) (op : string) : list string :=
  match op with
  | EmptyString => if decide (cur = "") then [] else [cur]
  | String c rest =>
      if isAlphaNum c then FindAllString_from (cur +:+ String c "") rest
      else (if decide (cur = "") then [] else [cur]) ++ FindAllString_from "" rest
  end.

Definition FindAllString (op : string) : list string := FindAllString_from "" op.

(** [strings.Join(parts, "")]. *)
Definition Join (parts : list string) : string := fold_right String.append "" parts.

(** The loop of [AddArgument] that derives [Dest] from the option strings. *)
Fixpoint deriveDest (dest : string) (ops : list string) : string :=
  match ops with
  | [] => dest
  | op :: rest =>
      let full := Join (FindAllString op) in
      deriveDest (if (String.length dest <? String.length full)%nat then full else dest) rest
  end.

(** [AddArgument], after the options have built [a]: the default of [Dest],
    then the registration. The defaults of [Action] and [Type] are part of
    the record already. The default of [MetaVar] (lines 119-130), which
    feeds the help output only, is left out: [Some] is what the call returns
    when that step goes through, which it does unless its
    [make([]string, a.Nargs)] is reached with a length the runtime refuses.
    [None] is the error return, the redefinition of an option string. *)
Definition AddArgument (p : ArgumentParser) (a0 : Argument)
    : option (Argument * ArgumentParser) :=
  let a :=
    if decide (Dest a0 = "") then
      {| addr := addr a0; Action := Action a0; Const := Const a0;
         Default := Default a0; Dest := deriveDest "" (OptionStrings a0);
         Nargs := Nargs a0; OptionStrings := OptionStrings a0;
         Required := Required a0; Type_ := Type_ a0; Choices := Choices a0 |}
    else a0 in
  if Optional a then
    if existsb (fun op => bool_decide (is_Some (Optionals p !! op))) (OptionStrings a)
    then None
    else Some (a, {| Optionals := foldl (fun m op => <[op := a]> m) (Optionals p) (OptionStrings a);
                     Positionals := Positionals p |})
  else Some (a, {| Optionals := Optionals p; Positionals := Positionals p ++ [a] |}).

(** [getOptionals(false)]: the arguments of [Optionals], each once. [order]
    is the order in which the [range] over the map yields its keys;
    [already] holds the addresses seen so far. *)
Fixpoint getOptionals_range (m : gmap string Argument) (order : list string)
    (args : list Argument) (already : list nat) : list Argument :=
  match order with
  | [] => args
  | k :: rest =>
      match m !! k with
      | None => getOptionals_range m rest args already
      | Some a =>
          if bool_decide (addr a ∈ already) then getOptionals_range m rest args already
          else getOptionals_range m rest (args ++ [a]) (addr a :: already)
      end
  end.

Definition getOptionals (p : ArgumentParser) (order : list string) : list Argument :=
  getOptionals_range (Optionals p) order [] [].

(** The orders a [range] over [Optionals] can take: every key once. *)
Definition iteration_order (p : ArgumentParser) (order : list string) : Prop :=
  NoDup order ∧ ∀ k, k ∈ order ↔ is_Some (Optionals p !! k).

(** ** The parsing engine (parsing.go) *)

(** [parsingState] without its [parser], which never changes. *)
Record parsingState : Type := {
  args : list string;
  argi : nat;
  ns : gmap string value;
  posi : nat
}.

Definition init (args : list string) : parsingState :=
  {| args := args; argi := 0; ns := ∅; posi := 0 |}.

Definition with_argi (s : parsingState) (i : nat) : parsingState :=
  {| args := args s; argi := i; ns := ns s; posi := posi s |}.

Definition with_posi (s : parsingState) (i : nat) : parsingState :=
  {| args := args s; argi := argi s; ns := ns s; posi := i |}.

Definition with_ns (s : parsingState) (m : gmap string value) : parsingState :=
  {| args := args s; argi := argi s; ns := m; posi := posi s |}.

Definition remainder (s : parsingState) : list string := drop (argi s) (args s).

Definition isNamed (p : ArgumentParser) (tok : string) : bool :=
  bool_decide (is_Some (Optionals p !! tok)).

(** The scan of [getArgs]: the index of the first token of [r] that is a
    key of [Optionals], or the length of [r]. *)
Fixpoint scanValues (p : ArgumentParser) (r : list string) : nat :=
  match r with
  | [] => 0
  | tok :: rest => if isNamed p tok then 0%nat else S (scanValues p rest)
  end.

Definition getArgs (p : ArgumentParser) (a : Argument) (s : parsingState)
    : res (list string) * parsingState :=
  let r := remainder s in
  if Z.of_nat (length r) <? Nargs a then (Fail (NotEnoughValues (Dest a)), s)
  else if Nargs a =? 0 then (Ret [], s)
  else if Nargs a =? ZeroOrOne then
    match r with
    | tok :: _ =>
        if isNamed p tok then (Ret [], s)
        else (Ret [tok], with_argi s (argi s + 1))
    | [] => (Ret [], s)
    end
  else if (Nargs a =? ZeroOrMore) && bool_decide (length r = 0%nat) then (Ret [], s)
  else if (Nargs a =? ZeroOrMore) || (Nargs a =? OneOrMore) then
    if bool_decide (length r = 0%nat) then (Fail (ExpectedAtLeastOne (Dest a)), s)
    else
      let i := scanValues p r in
      (Ret (take i r), with_argi s (argi s + i))
  else
    (* [r[:a.Nargs]] with a negative bound; the state is lost with the panic *)
    if Nargs a <? 0 then (Panic, s)
    else (Ret (take (Z.to_nat (Nargs a)) r), with_argi s (argi s + Z.to_nat (Nargs a))).

(** The conversion loop of [handle]'s default case. *)
Fixpoint createValues (a : Argument) (args : list string) : res (list value) :=
  match args with
  | [] => Ret []
  | arg :: rest =>
      match createValue a arg with
      | Ret v =>
          match createValues a rest with
          | Ret vs => Ret (v :: vs)
          | Fail e => Fail e
          | Panic => Panic
          end
      | Fail e => Fail (TypeFailed e)
      | Panic => Panic
      end
  end.

Definition runAction (T : ActionTable) (a : Argument) (s : parsingState)
    (vs : list value) : res unit * parsingState :=
  let '(r, m) := callAction T a (ns s) vs in (r, with_ns s m).

Definition handleOne (T : ActionTable) (a : Argument) (s : parsingState)
    (arg : string) : res unit * parsingState :=
  match createValue a arg with
  | Ret v => runAction T a s [v]
  | Fail e => (Fail (TypeFailed e), s)
  | Panic => (Panic, s)
  end.

Definition handleAll (T : ActionTable) (a : Argument) (s : parsingState)
    (args : list string) : res unit * parsingState :=
  match createValues a args with
  | Ret vs => runAction T a s vs
  | Fail e => (Fail e, s)
  | Panic => (Panic, s)
  end.

Definition handle (T : ActionTable) (p : ArgumentParser) (a : Argument)
    (s : parsingState) : res unit * parsingState :=
  match getArgs p a s with
  | (Ret args, s1) =>
      if Nargs a =? 0 then
        match args with
        | [] => runAction T a s1 [Const a]
        | _ => (Fail (ExpectedZeroValues (Dest a) (length args)), s1)
        end
      else if Nargs a =? ZeroOrOne then
        match args with
        | [] => runAction T a s1 [Const a]
        | arg :: _ => handleOne T a s1 arg
        end
      else if (Nargs a =? ZeroOrMore) && bool_decide (length args = 0%nat) then
        runAction T a s1 [Const a]
      else if (Nargs a =? ZeroOrMore) || (Nargs a =? OneOrMore) then
        match args with
        | [] => (Fail ExpectedOneOrMore, s1)
        | [arg] => handleOne T a s1 arg
        | _ => handleAll T a s1 args
        end
      else handleAll T a s1 args
  | (Fail e, s1) => (Fail e, s1)
  | (Panic, s1) => (Panic, s1)
  end.

(** One turn of the main loop of [parse], entered with a token under the
    cursor. *)
Definition parseToken (T : ActionTable) (p : ArgumentParser) (s : parsingState)
    (arg : string) : res unit * parsingState :=
  match Optionals p !! arg with
  | Some a => handle T p a (with_argi s (argi s + 1))
  | None =>
      match Positionals p !! posi s with
      | None => (Fail (UnexpectedArgument arg), s)
      | Some a => handle T p a (with_posi s (posi s + 1))
      end
  end.

(** The main loop; [None] when the fuel runs out before the loop ends. *)
Fixpoint parseLoop (T : ActionTable) (p : ArgumentParser) (fuel : nat)
    (s : parsingState) : option (res unit * parsingState) :=
  match args s !! argi s with
  | None => Some (Ret tt, s)
  | Some arg =>
      match fuel with
      | O => None
      | S fuel' =>
          match parseToken T p s arg with
          | (Ret _, s1) => parseLoop T p fuel' s1
          | r => Some r
          end
      end
  end.

(** The body of the second loop of [parse]. *)
Definition resolveArg (T : ActionTable) (a : Argument) (m : gmap string value)
    : res unit * gmap string value :=
  match Namespace.Get m a with
  | Some _ => (Ret tt, m)
  | None =>
      if Required a then (Fail (MissingRequired (Dest a)), m)
      else
        match Default a with
        | VNil => (Ret tt, m)
        | d => callAction T a m [d]
        end
  end.

Fixpoint resolveArgs (T : ActionTable) (allArgs : list Argument)
    (m : gmap string value) : res unit * gmap string value :=
  match allArgs with
  | [] => (Ret tt, m)
  | a :: rest =>
      match resolveArg T a m with
      | (Ret _, m1) => resolveArgs T rest m1
      | r => r
      end
  end.

Definition allArgs (p : ArgumentParser) (order : list string) : list Argument :=
  getOptionals p order ++ Positionals p.

Definition parseFrom (T : ActionTable) (p : ArgumentParser) (order : list string)
    (fuel : nat) (s : parsingState) : option (res unit * parsingState) :=
  match parseLoop T p fuel s with
  | Some (Ret _, s1) =>
      let '(r, m) := resolveArgs T (allArgs p order) (ns s1) in
      Some (r, with_ns s1 m)
  | other => other
  end.

(** The turns the main loop can take: each one moves the cursor or the
    positional index forward. *)
Definition parseFuel (p : ArgumentParser) (tokens : list string) : nat :=
  (length tokens + length (Positionals p))%nat.

(** [init] followed by [parse]. *)
Definition parse (T : ActionTable) (p : ArgumentParser) (order : list string)
    (tokens : list string) : option (res unit * parsingState) :=
  parseFrom T p order (parseFuel p tokens) (init tokens).

(** What [ParseArgs] hands back for the tokens it passes to [init], when
    no target is bound: the namespace, or the error alone. What comes
    before [init] is left out: an empty argument list is replaced by
    [os.Args[1:]], and [handleHelp] prints the help and exits the process
    when [NoHelp] is unset and one of the tokens is "-h" or "--help", so
    that for such tokens this is the outcome of [init] and [parse] only. *)
Definition ParseArgs (T : ActionTable) (p : ArgumentParser) (order : list string)
    (tokens : list string) : option (res (gmap string value)) :=
  match parse T p order tokens with
  | Some (Ret _, s) => Some (Ret (ns s))
  | Some (Fail e, _) => Some (Fail e)
  | Some (Panic, _) => Some Panic
  | None => None
  end.

(** ** Sample declarations *)

Definition emptyParser : ArgumentParser := {| Optionals := ∅; Positionals := [] |}.

(** The argument [AddArgument(OptionStrings(ops...))] starts from, with
    the defaults of [Action] and [Type] filled in. *)
Definition newArgument (address : nat) (ops : list string) : Argument :=
  {| addr := address; Action := Store; Const := VNil; Default := VNil;
     Dest := ""; Nargs := 0; OptionStrings := ops; Required := false;
     Type_ := Conv.String; Choices := None |}.

(** What [AddArgument(OptionStrings("-n", "--dry-run"))] registers. *)
Definition dryRunDeclared : Argument :=
  {| addr := 0; Action := Store; Const := VNil; Default := VNil;
     Dest := "dryrun"; Nargs := 0; OptionStrings := ["-n"; "--dry-run"];
     Required := false; Type_ := Conv.String; Choices := None |}.

Definition dryRunParser : ArgumentParser :=
  {| Optionals := <["--dry-run" := dryRunDeclared]> (<["-n" := dryRunDeclared]> ∅);
     Positionals := [] |}.

(** The characters of [s] that [alphaNumRegexp] matches, in order. *)
Fixpoint alphaNumOnly (s : string) : string :=
  match s with
  | EmptyString => EmptyString
  | String c rest => if isAlphaNum c then String c (alphaNumOnly rest) else alphaNumOnly rest
  end.

(** The key is one maximal alphanumeric run of one of the option strings. *)
Definition keyIsSingleRun (a : Argument) : Prop :=
  ∃ op, op ∈ OptionStrings a ∧ Dest a ∈ FindAllString op.

(** [--flag] with zero-or-more values and the flag [--other]:
    [AddArgument(OptionStrings("--flag"), Nargs(ZeroOrMore))] and
    [AddArgument(OptionStrings("--other"), Const(true))]. *)
Definition flagArg : Argument :=
  {| addr := 0; Action := Store; Const := VNil; Default := VNil;
     Dest := "flag"; Nargs := ZeroOrMore; OptionStrings := ["--flag"];
     Required := false; Type_ := Conv.String; Choices := None |}.

Definition otherArg : Argument :=
  {| addr := 1; Action := Store; Const := VBool true; Default := VNil;
     Dest := "other"; Nargs := 0; OptionStrings := ["--other"];
     Required := false; Type_ := Conv.String; Choices := None |}.

Definition flagParser : ArgumentParser :=
  {| Optionals := <["--other" := otherArg]> (<["--flag" := flagArg]> ∅);
     Positionals := [] |}.

(** [AddArgument(Action("store"), OptionStrings("-c", "--count"))]. *)
Definition countArg : Argument :=
  {| addr := 0; Action := Store; Const := VNil; Default := VNil;
     Dest := "count"; Nargs := 1; OptionStrings := ["-c"; "--count"];
     Required := false; Type_ := Conv.String; Choices := None |}.

Definition countParser : ArgumentParser :=
  {| Optionals := <["--count" := countArg]> (<["-c" := countArg]> ∅);
     Positionals := [] |}.

(** [AddArgument(Action("store_true"), OptionStrings("--verbose"))] and
    [AddArgument(Action("store_false"), OptionStrings("--quiet"))]. *)
Definition verboseArg : Argument :=
  {| addr := 0; Action := StoreTrue; Const := VBool true; Default := VBool false;
     Dest := "verbose"; Nargs := 0; OptionStrings := ["--verbose"];
     Required := false; Type_ := Conv.String; Choices := None |}.

Definition quietArg : Argument :=
  {| addr := 0; Action := StoreFalse; Const := VBool false; Default := VBool true;
     Dest := "quiet"; Nargs := 0; OptionStrings := ["--quiet"];
     Required := false; Type_ := Conv.String; Choices := None |}.

Definition verboseParser : ArgumentParser :=
  {| Optionals := <["--verbose" := verboseArg]> ∅; Positionals := [] |}.

Definition quietParser : ArgumentParser :=
  {| Optionals := <["--quiet" := quietArg]> ∅; Positionals := [] |}.

(** [AddArgument(Action("append"), OptionStrings("--tag"), Nargs(1))]. *)
Definition tagArg : Argument :=
  {| addr := 0; Action := Append; Const := VNil; Default := VNil;
     Dest := "tag"; Nargs := 1; OptionStrings := ["--tag"];
     Required := false; Type_ := Conv.String; Choices := None |}.

(** Two named arguments whose derived keys coincide:
    [AddArgument(Action("store"), OptionStrings("--logfile"), Default("app.log"))]
    and [AddArgument(Action("store"), OptionStrings("--log-file"), Required)]. *)
Definition logfileArg : Argument :=
  {| addr := 0; Action := Store; Const := VNil; Default := VString "app.log";
     Dest := "logfile"; Nargs := 1; OptionStrings := ["--logfile"];
     Required := false; Type_ := Conv.String; Choices := None |}.

Definition logFileRequired : Argument :=
  {| addr := 1; Action := Store; Const := VNil; Default := VNil;
     Dest := "logfile"; Nargs := 1; OptionStrings := ["--log-file"];
     Required := true; Type_ := Conv.String; Choices := None |}.

Definition requiredSharedParser : ArgumentParser :=
  {| Optionals := <["--log-file" := logFileRequired]> (<["--logfile" := logfileArg]> ∅);
     Positionals := [] |}.

(** The same pair with a default instead of [Required]:
    [AddArgument(Action("store"), OptionStrings("--log-file"), Default("other.log"))]. *)
Definition logFileDefault : Argument :=
  {| addr := 1; Action := Store; Const := VNil; Default := VString "other.log";
     Dest := "logfile"; Nargs := 1; OptionStrings := ["--log-file"];
     Required := false; Type_ := Conv.String; Choices := None |}.

Definition defaultSharedParser : ArgumentParser :=
  {| Optionals := <["--log-file" := logFileDefault]> (<["--logfile" := logfileArg]> ∅);
     Positionals := [] |}.

(** [AddArgument(OptionStrings("--name"), Default("x"))]: the action
    defaults to [Store], [Nargs] stays 0. *)
Definition nameArg : Argument :=
  {| addr := 0; Action := Store; Const := VNil; Default := VString "x";
     Dest := "name"; Nargs := 0; OptionStrings := ["--name"];
     Required := false; Type_ := Conv.String; Choices := None |}.

Definition nameParser : ArgumentParser :=
  {| Optionals := <["--name" := nameArg]> ∅; Positionals := [] |}.

(** A parser with the single option string [k] for [a]. *)
Definition oneNamed (k : string) (a : Argument) : ArgumentParser :=
  {| Optionals := {[k := a]}; Positionals := [] |}.

(** ** Notions the properties are stated with *)

(** The action of [a] invoked once for each value list of [vss], in order,
    stopping at the first failure. *)
Fixpoint invokeAll (T : ActionTable) (a : Argument) (vss : list (list value))
    (m : gmap string value) : res unit * gmap string value :=
  match vss with
  | [] => (Ret tt, m)
  | vs :: rest =>
      match callAction T a m vs with
      | (Ret _, m1) => invokeAll T a rest m1
      | r => r
      end
  end.

(** The sequence [Namespace.Append] starts from. *)
Definition existingValues (m : gmap string value) (a : Argument) : list value :=
  match m !! Dest a with
  | Some (VSlice existing) => existing
  | Some existing => [existing]
  | None => []
  end.

(** What one invocation of the append action adds: its values one by one
    when the action is the function [Append], the single value
    [getArgValueForNS] makes of them when it is the named action. *)
Definition appended (T : ActionTable) (a : Argument) (vs : list value) : list value :=
  match T with
  | funcActions => vs
  | namedActions => [getArgValueForNS a vs]
  end.

Definition succeeded {A : Type} (r : res A) : bool :=
  match r with Ret _ => true | _ => false end.

(** Every argument of the parser has an arity that [Nargs] accepts. *)
Definition validNargs (p : ArgumentParser) : Prop :=
  (∀ k a, Optionals p !! k = Some a → isValidNarg (Nargs a) = true) ∧
  Forall (λ a, isValidNarg (Nargs a) = true) (Positionals p).

(** What is left for the main loop: the tokens from the cursor on and the
    positional arguments from the positional index on. *)
Definition remaining (p : ArgumentParser) (s : parsingState) : nat :=
  ((length (args s) - argi s) + (length (Positionals p) - posi s))%nat.

Definition panicked {A : Type} (r : res A) : bool :=
  match r with Panic => true | _ => false end.

(** The named arguments are told apart by their keys: option strings that
    lead to the same key, or to the same address, lead to the same
    argument. *)
Definition distinctKeys (p : ArgumentParser) : Prop :=
  ∀ k1 k2 a1 a2,
    Optionals p !! k1 = Some a1 → Optionals p !! k2 = Some a2 →
    Dest a1 = Dest a2 ∨ addr a1 = addr a2 → a1 = a2.

(** The mapping a caller of [ParseArgs] gets, if it gets one. *)
Definition resultMapping (r : option (res (gmap string value)))
    : option (gmap string value) :=
  match r with
  | Some (Ret m) => Some m
  | _ => None
  end.

(** The mapping a pass ends with when it succeeds. *)
Definition okMap (r : res unit * gmap string value) : option (gmap string value) :=
  if succeeded r.1 then Some r.2 else None.

(** Writing [w] under the key [k], or nothing. *)
Definition upd (k : string) (w : option value) (m : gmap string value)
    : gmap string value :=
  match w with
  | None => m
  | Some v => <[k := v]> m
  end.

(** Under both revisions of the actions. *)
Definition bothTables (P : ActionTable → Prop) : Prop := P funcActions ∧ P namedActions.

(** ** Declaration options, choices, help and namespace readers *)

(** The errors of the options [OptionStrings] and [Nargs]. *)
Inductive optionError : Type :=
| NoOptionStrings                       (* "no option strings specified" *)
| CannotDetermine (first : string)      (* "cannot determine if argument %s is optional or positional" *)
| InvalidNargs (v : Z).                 (* "%d is not a valid number of arguments" *)

Definition set_OptionStrings (a : Argument) (ops : list string) : Argument :=
  {| addr := addr a; Action := Action a; Const := Const a; Default := Default a;
     Dest := Dest a; Nargs := Nargs a; OptionStrings := ops;
     Required := Required a; Type_ := Type_ a; Choices := Choices a |}.

Definition set_Nargs (a : Argument) (v : Z) : Argument :=
  {| addr := addr a; Action := Action a; Const := Const a; Default := Default a;
     Dest := Dest a; Nargs := v; OptionStrings := OptionStrings a;
     Required := Required a; Type_ := Type_ a; Choices := Choices a |}.

(** The loop of the option [OptionStrings] that sets the two flags
    [positional] and [optional]. *)
Fixpoint classify (ops : list string) (positional optional : bool) : bool * bool :=
  match ops with
  | [] => (positional, optional)
  | op :: rest =>
      if HasPrefix_dash op then classify rest positional true
      else classify rest true optional
  end.

(** [type ArgumentOption func(a *Argument) error]: the argument after the
    option, or the error. *)
Module ArgumentOption.

Definition OptionStrings (ops : list string) (a : Argument) : optionError + Argument :=
  match ops with
  | [] => inl NoOptionStrings
  | first :: _ =>
      let '(positional, optional) := classify ops false false in
      if Bool.eqb optional positional then inl (CannotDetermine first)
      else inr (set_OptionStrings a ops)
  end.

Definition Nargs (v : Z) (a : Argument) : optionError + Argument :=
  if isValidNarg v then inr (set_Nargs a v) else inl (InvalidNargs v).

End ArgumentOption.

(** [NewChoices] copies its arguments before [newChoices] takes them. *)
Definition NewChoices (choices : list Choice) : ArgumentChoices := newChoices choices.

Definition Len (cs : ArgumentChoices) : Z := Z.of_nat (length (items cs)).

(** [At]: [None] is the nil pointer. *)
Definition At (cs : ArgumentChoices) (i : Z) : option Choice :=
  if (i <? 0) || (Len cs <=? i) then None else items cs !! Z.to_nat i.

(** The loop of [getShortestArgOptionString] over [a.OptionStrings[1:]]. *)
Fixpoint shortestFrom (short : string) (rest : list string) : string :=
  match rest with
  | [] => short
  | s :: rest' =>
      shortestFrom (if (String.length s <? String.length short)%nat then s else short) rest'
  end.

Definition getShortestArgOptionString (a : Argument) : string :=
  match OptionStrings a with
  | [] => ""
  | [s] => s
  | s :: rest => shortestFrom s rest
  end.

(** The errors of [GetStrings]. *)
Inductive namespaceError : Type :=
| NotASlice (v : value)                 (* "%v (type: %T) is not %v (type: %T)" *)
| NotAString (i : nat) (v : value).     (* "index %d of argument %v is %v (type: %T), not type %T" *)

Inductive got (A : Type) : Type :=
| Got (x : A)
| GetError (e : namespaceError)
| GetPanic.                             (* "failed to get argument %q" *)
Arguments Got {A} x.
Arguments GetError {A} e.
Arguments GetPanic {A}.

Definition MustGet (m : gmap string value) (a : Argument) : got value :=
  match Namespace.Get m a with
  | Some v => Got v
  | None => GetPanic
  end.

(** The loop of [GetStrings] over the elements, from index [i] on. *)
Fixpoint stringsFrom (i : nat) (vs : list value) : got (list string) :=
  match vs with
  | [] => Got []
  | VString x :: rest =>
      match stringsFrom (S i) rest with
      | Got ss => Got (x :: ss)
      | other => other
      end
  | v :: _ => GetError (NotAString i v)
  end.

Definition GetStrings (m : gmap string value) (a : Argument) : got (list string) :=
  match MustGet m a with
  | Got (VSlice vs) => stringsFrom 0 vs
  | Got v => GetError (NotASlice v)
  | GetError e => GetError e
  | GetPanic => GetPanic
  end.

(** [MustGetStrings] panics with the error of [GetStrings]. *)
Definition MustGetStrings (m : gmap string value) (a : Argument) : got (list string) :=
  match GetStrings m a with
  | Got ss => Got ss
  | _ => GetPanic
  end.

(** [--level] restricted to the choices "low" and "high":
    [AddArgument(Action("store"), OptionStrings("--level"),
    Choices(Choice{"low", 0}, Choice{"high", 1}))]. *)
Definition levelArg : Argument :=
  {| addr := 0; Action := Store; Const := VNil; Default := VNil;
     Dest := "level"; Nargs := 1; OptionStrings := ["--level"];
     Required := false; Type_ := Conv.String;
     Choices := Some (NewChoices [ {| Key := "low"; Value := VInt 0 |};
                                   {| Key := "high"; Value := VInt 1 |} ]) |}.

(** Two positional arguments:
    [AddArgument(Action("store"), OptionStrings("source"))] and
    [AddArgument(Action("store"), OptionStrings("target"))]. *)
Definition sourceArg : Argument :=
  {| addr := 0; Action := Store; Const := VNil; Default := VNil;
     Dest := "source"; Nargs := 1; OptionStrings := ["source"];
     Required := false; Type_ := Conv.String; Choices := None |}.

Definition targetArg : Argument :=
  {| addr := 1; Action := Store; Const := VNil; Default := VNil;
     Dest := "target"; Nargs := 1; OptionStrings := ["target"];
     Required := false; Type_ := Conv.String; Choices := None |}.

Definition copyParser : ArgumentParser :=
  {| Optionals := ∅; Positionals := [sourceArg; targetArg] |}.

(** Every option string of [a] begins with "-". *)
Definition allDashed (ops : list string) : Prop := Forall (λ op, HasPrefix_dash op = true) ops.

Definition noneDashed (ops : list string) : Prop := Forall (λ op, HasPrefix_dash op = false) ops.

(** The keys a parser can write: the [Dest] of its arguments. *)
Definition declaredKey (p : ArgumentParser) (k : string) : Prop :=
  (∃ op a, Optionals p !! op = Some a ∧ Dest a = k) ∨
  (∃ a, a ∈ Positionals p ∧ Dest a = k).

(** A plain argument: store action, arity one, no choices, the default
    converter, as [AddArgument(Action("store"), OptionStrings(name))]
    declares it. *)
Definition plainArgument (a : Argument) : Prop :=
  Action a = Store ∧ Nargs a = 1 ∧ Choices a = None ∧ Type_ a = Conv.String.

(** The arguments a parser holds. *)
Definition declaredArgument (p : ArgumentParser) (a : Argument) : Prop :=
  (∃ op, Optionals p !! op = Some a) ∨ a ∈ Positionals p.


(** Two arguments whose action is [Append] and whose arity is not one:
    [--pair] with [Nargs(2)] and [--tags] with [Nargs(OneOrMore)], the
    action set by [Action("append")] or by an option of the caller's that
    assigns [a.Action = Append]. *)
Definition pairArg : Argument :=
  {| addr := 0; Action := Append; Const := VNil; Default := VNil;
     Dest := "pair"; Nargs := 2; OptionStrings := ["--pair"];
     Required := false; Type_ := Conv.String; Choices := None |}.

Definition tagsArg : Argument :=
  {| addr := 0; Action := Append; Const := VNil; Default := VNil;
     Dest := "tags"; Nargs := OneOrMore; OptionStrings := ["--tags"];
     Required := false; Type_ := Conv.String; Choices := None |}.

(** The key of [a] holds the ordered sequence of all the values that the
    invocations [vss] supplied, in invocation order. *)
Definition holdsSupplied (m : gmap string value) (a : Argument)
    (vss : list (list value)) : Prop :=
  m !! Dest a = Some (VSlice (concat vss)).

(** * Properties *)

(** ** The derived key *)

Lemma append_cons (c : ascii) (s t : string) : String c s +:+ t = String c (s +:+ t).
Proof. reflexivity. Qed.

Lemma append_empty_r (s : string) : s +:+ "" = s.
Proof. induction s as [|c s IH]; [done|]. by rewrite append_cons, IH. Qed.

Lemma append_snoc (s t : string) (c : ascii) : (s +:+ String c "") +:+ t = s +:+ String c t.
Proof. induction s as [|d s IH]; [done|]. by rewrite !append_cons, IH. Qed.

Lemma Join_FindAllString_from (cur op : string) :
  Join (FindAllString_from cur op) = cur +:+ alphaNumOnly op.
Proof.
  revert cur. induction op as [|c rest IH]; intros cur; simpl.
  - rewrite append_empty_r. case_decide as E; [by subst|]. simpl. apply append_empty_r.
  - destruct (isAlphaNum c).
    + rewrite IH. apply append_snoc.
    + case_decide as E.
      * subst. simpl. apply IH.
      * simpl. by rewrite IH.
Qed.

(** Joining the runs of an option string removes its other characters. *)
Lemma Join_FindAllString (op : string) : Join (FindAllString op) = alphaNumOnly op.
Proof. unfold FindAllString. apply Join_FindAllString_from. Qed.

(** The loop keeps the first of the longest joined strings that beat the
    starting value. *)
Lemma deriveDest_spec (ops : list string) (dest : string) :
  (deriveDest dest ops = dest ∧
   ∀ o, o ∈ ops → (String.length (alphaNumOnly o) ≤ String.length dest)%nat) ∨
  (∃ pre op post, ops = pre ++ op :: post ∧
     deriveDest dest ops = alphaNumOnly op ∧
     (String.length dest < String.length (alphaNumOnly op))%nat ∧
     (∀ o, o ∈ pre → (String.length (alphaNumOnly o) < String.length (alphaNumOnly op))%nat) ∧
     (∀ o, o ∈ post → (String.length (alphaNumOnly o) ≤ String.length (alphaNumOnly op))%nat)).
Proof.
  revert dest. induction ops as [|op ops IH]; intros dest; simpl.
  - left. split; [done|]. intros o Ho. by apply elem_of_nil in Ho.
  - rewrite Join_FindAllString.
    destruct (String.length dest <? String.length (alphaNumOnly op))%nat eqn:Hlt.
    + apply Nat.ltb_lt in Hlt.
      destruct (IH (alphaNumOnly op)) as [[Heq Hall]|(pre & op' & post & -> & Heq & Hgt & Hpre & Hpost)].
      * right. exists [], op, ops. repeat split; try done.
        intros o Ho. by apply elem_of_nil in Ho.
      * right. exists (op :: pre), op', post. repeat split; try done; [lia|].
        intros o Ho. apply elem_of_cons in Ho as [->|Ho]; [lia|by apply Hpre].
    + apply Nat.ltb_ge in Hlt.
      destruct (IH dest) as [[Heq Hall]|(pre & op' & post & -> & Heq & Hgt & Hpre & Hpost)].
      * left. split; [done|]. intros o Ho.
        apply elem_of_cons in Ho as [->|Ho]; [done|by apply Hall].
      * right. exists (op :: pre), op', post. repeat split; try done.
        intros o Ho. apply elem_of_cons in Ho as [->|Ho]; [lia|by apply Hpre].
Qed.

Lemma AddArgument_Dest (p p' : ArgumentParser) (a0 a : Argument) :
  AddArgument p a0 = Some (a, p') →
  Dest a = (if decide (Dest a0 = "") then deriveDest "" (OptionStrings a0) else Dest a0) ∧
  OptionStrings a = OptionStrings a0.
Proof.
  unfold AddArgument. intros H.
  repeat (case_match; simplify_eq; simpl in * ); try done.
Qed.

(** C3, as the code has it: a key left unset becomes what remains of one
    option string once every character outside 0-9, A-Z, a-z is removed
    (all its alphanumeric runs joined, case preserved); that option string
    is the first one for which the remainder is longest. *)
Theorem C3_default_key_joins_runs (p p' : ArgumentParser) (a0 a : Argument) :
  Dest a0 = "" →
  OptionStrings a0 ≠ [] →
  AddArgument p a0 = Some (a, p') →
  ∃ pre op post,
    OptionStrings a0 = pre ++ op :: post ∧
    Dest a = Join (FindAllString op) ∧
    Dest a = alphaNumOnly op ∧
    (∀ o, o ∈ pre → (String.length (alphaNumOnly o) < String.length (Dest a))%nat) ∧
    (∀ o, o ∈ post → (String.length (alphaNumOnly o) ≤ String.length (Dest a))%nat).
Proof.
  intros Hunset Hne Hadd.
  destruct (AddArgument_Dest _ _ _ _ Hadd) as [HD _].
  rewrite decide_True in HD by done. rewrite HD.
  destruct (deriveDest_spec (OptionStrings a0) "") as
    [[Heq Hall]|(pre & op & post & Hops & Heq & Hgt & Hpre & Hpost)].
  - destruct (OptionStrings a0) as [|op post] eqn:Hops; [done|].
    assert (Hz : alphaNumOnly op = "").
    { specialize (Hall op ltac:(left)). simpl in Hall.
      destruct (alphaNumOnly op); [done|simpl in Hall; lia]. }
    exists [], op, post. rewrite Heq, Join_FindAllString, Hz. repeat split; try done.
    + intros o Ho. by apply elem_of_nil in Ho.
    + intros o Ho. apply Hall. by right.
  - exists pre, op, post. rewrite Heq, Join_FindAllString. by repeat split.
Qed.

Lemma C3_default_key_joins_runs_witness :
  ∃ pre op post,
    ["-n"; "--dry-run"] = pre ++ op :: post ∧
    "dryrun" = Join (FindAllString op) ∧
    "dryrun" = alphaNumOnly op ∧
    (∀ o, o ∈ pre → (String.length (alphaNumOnly o) < String.length "dryrun")%nat) ∧
    (∀ o, o ∈ post → (String.length (alphaNumOnly o) ≤ String.length "dryrun")%nat).
Proof.
  apply (C3_default_key_joins_runs emptyParser dryRunParser
           (newArgument 0 ["-n"; "--dry-run"]) dryRunDeclared).
  - reflexivity.
  - discriminate.
  - vm_compute. reflexivity.
Defined.

(** C3, as stated, fails: for the option string "--dry-run" the derived key
    is "dryrun", which is not a run of alphanumeric characters of any
    option string. *)
Lemma C3_key_is_not_a_single_run :
  ∃ a p', AddArgument emptyParser (newArgument 0 ["--dry-run"]) = Some (a, p') ∧
    Dest a = "dryrun" ∧ FindAllString "--dry-run" = ["dry"; "run"] ∧ ¬ keyIsSingleRun a.
Proof.
  eexists _, _. split; [vm_compute; reflexivity|]. split; [reflexivity|].
  split; [reflexivity|].
  intros (op & Hop & Hrun). simpl in Hop.
  apply list_elem_of_singleton in Hop. subst op.
  change ("dryrun" ∈ ["dry"; "run"]) in Hrun.
  apply elem_of_cons in Hrun as [?|Hrun]; [discriminate|].
  apply elem_of_cons in Hrun as [?|Hrun]; [discriminate|].
  by apply elem_of_nil in Hrun.
Qed.

(** ** The actions *)

Lemma with_ns_same (s : parsingState) : with_ns s (ns s) = s.
Proof. by destruct s. Qed.

Lemma with_argi_same (s : parsingState) : with_argi s (argi s) = s.
Proof. by destruct s. Qed.

Lemma Store_present (T : ActionTable) (a : Argument) (m : gmap string value)
    (vs : list value) (v : value) :
  Action a = Store → m !! Dest a = Some v →
  callAction T a m vs = (Fail (AlreadySet (Dest a) v), m).
Proof.
  intros Ha Hm. unfold callAction. rewrite Ha.
  destruct T; unfold FuncAction.Store, NamedAction.Store, Namespace.Get; by rewrite Hm.
Qed.

Lemma Store_absent (T : ActionTable) (a : Argument) (m : gmap string value)
    (vs : list value) :
  Action a = Store → m !! Dest a = None →
  callAction T a m vs = (Ret tt, <[Dest a := getArgValueForNS a vs]> m).
Proof.
  intros Ha Hm. unfold callAction. rewrite Ha.
  destruct T; unfold FuncAction.Store, NamedAction.Store, Namespace.Get; by rewrite Hm.
Qed.

Lemma Append_call (T : ActionTable) (a : Argument) (m : gmap string value)
    (vs : list value) :
  Action a = Append →
  callAction T a m vs =
    (Ret tt, <[Dest a := VSlice (existingValues m a ++ appended T a vs)]> m).
Proof.
  intros Ha. unfold callAction. rewrite Ha. by destruct T.
Qed.

Lemma existingValues_insert (m : gmap string value) (a : Argument) (l : list value) :
  existingValues (<[Dest a := VSlice l]> m) a = l.
Proof. unfold existingValues. by rewrite lookup_insert_eq. Qed.

Lemma invokeAll_Append (T : ActionTable) (a : Argument) (vss : list (list value))
    (vs : list value) (m : gmap string value) :
  Action a = Append →
  invokeAll T a (vs :: vss) m =
    (Ret tt, <[Dest a := VSlice (existingValues m a ++ concat (appended T a <$> (vs :: vss)))]> m).
Proof.
  intros Ha. revert vs m. induction vss as [|ws vss IH]; intros vs m.
  - simpl. rewrite Append_call by done. by rewrite app_nil_r.
  - change (invokeAll T a (vs :: ws :: vss) m) with
      (match callAction T a m vs with
       | (Ret _, m1) => invokeAll T a (ws :: vss) m1
       | r => r
       end).
    rewrite Append_call by done. rewrite IH.
    rewrite existingValues_insert, insert_insert_eq.
    by rewrite <- app_assoc.
Qed.

Lemma appended_func (a : Argument) (vss : list (list value)) :
  concat (appended funcActions a <$> vss) = concat vss.
Proof. induction vss as [|vs vss IH]; [done|]. rewrite fmap_cons. simpl. by rewrite IH. Qed.

Lemma appended_named (a : Argument) (vss : list (list value)) :
  concat (appended namedActions a <$> vss) = getArgValueForNS a <$> vss.
Proof. induction vss as [|vs vss IH]; [done|]. rewrite !fmap_cons. simpl. by rewrite IH. Qed.

Lemma getArgValueForNS_one (a : Argument) (vss : list (list value)) :
  Nargs a = 1 → Forall (λ l, length l = 1%nat) vss →
  getArgValueForNS a <$> vss = concat vss.
Proof.
  intros Hn Hall. induction Hall as [|vs vss Hvs _ IH]; [done|].
  rewrite fmap_cons, IH. destruct vs as [|v [|w vs]]; try done.
  simpl. by rewrite Hn.
Qed.

Lemma getArgValueForNS_many (a : Argument) (vss : list (list value)) :
  Nargs a ≠ 1 → getArgValueForNS a <$> vss = VSlice <$> vss.
Proof.
  intros Hn. induction vss as [|vs vss IH]; [done|].
  rewrite !fmap_cons, IH. f_equal. unfold getArgValueForNS.
  destruct vs as [|v [|w vs]]; try done.
  destruct (Nargs a =? 1) eqn:He; [|done]. apply Z.eqb_eq in He. done.
Qed.

(** C7, as the code has it: every invocation of the append action succeeds
    and extends the sequence under the argument's key, whether or not the
    key is present (a value that is not a sequence becomes the first
    element), and no other key changes. The function [Append] adds the
    values of an invocation one by one: after the invocations [vs1 .. vsn]
    the key holds what was there followed by all supplied values in
    invocation order. The named action [Append] adds one element for each
    invocation, the value [getArgValueForNS] makes of its values: for an
    argument of arity one given one value at a time the key holds the
    supplied values themselves; for any other arity it holds one sequence
    for each invocation. *)
Theorem C7_append_accumulates (a : Argument) (vss : list (list value))
    (vs : list value) (m : gmap string value) :
  Action a = Append →
  invokeAll funcActions a (vs :: vss) m =
    (Ret tt, <[Dest a := VSlice (existingValues m a ++ concat (vs :: vss))]> m) ∧
  invokeAll namedActions a (vs :: vss) m =
    (Ret tt, <[Dest a := VSlice (existingValues m a ++ (getArgValueForNS a <$> vs :: vss))]> m) ∧
  (Nargs a = 1 → Forall (λ l, length l = 1%nat) (vs :: vss) →
   invokeAll namedActions a (vs :: vss) m =
     (Ret tt, <[Dest a := VSlice (existingValues m a ++ concat (vs :: vss))]> m)) ∧
  (Nargs a ≠ 1 →
   invokeAll namedActions a (vs :: vss) m =
     (Ret tt, <[Dest a := VSlice (existingValues m a ++ (VSlice <$> vs :: vss))]> m)).
Proof.
  intros Ha. split_and!.
  - by rewrite invokeAll_Append, appended_func.
  - by rewrite invokeAll_Append, appended_named.
  - intros Hn Hall. by rewrite invokeAll_Append, appended_named, getArgValueForNS_one.
  - intros Hn. by rewrite invokeAll_Append, appended_named, getArgValueForNS_many.
Qed.

Lemma C7_append_accumulates_witness :
  invokeAll funcActions tagArg [[VString "a"]; [VString "b"]] ∅ =
    (Ret tt, <["tag" := VSlice [VString "a"; VString "b"]]> ∅) ∧
  invokeAll namedActions tagArg [[VString "a"]; [VString "b"]] ∅ =
    (Ret tt, <["tag" := VSlice [VString "a"; VString "b"]]> ∅).
Proof.
  destruct (C7_append_accumulates tagArg [[VString "b"]] [VString "a"] ∅ eq_refl)
    as (Hfunc & _ & Hnamed & _).
  split; [exact Hfunc|].
  apply Hnamed; [reflexivity|]. repeat constructor.
Defined.

(** C7, as stated, fails for the named action [Append]: two occurrences of
    [--pair], of arity two, supplying the values a, b, c and d, leave under
    the key the two sequences [a, b] and [c, d], not the sequence of the
    four values; and two occurrences of [--tags], of arity one-or-more,
    with one value each leave the sequences [a] and [b], not [a, b]. *)
Lemma C7_named_append_nests_values :
  (Action pairArg = Append ∧
   ParseArgs namedActions (oneNamed "--pair" pairArg) ["--pair"]
       ["--pair"; "a"; "b"; "--pair"; "c"; "d"] =
     Some (Ret {["pair" := VSlice [VSlice [VString "a"; VString "b"];
                                   VSlice [VString "c"; VString "d"]]]}) ∧
   invokeAll namedActions pairArg
       [[VString "a"; VString "b"]; [VString "c"; VString "d"]] ∅ =
     (Ret tt, {["pair" := VSlice [VSlice [VString "a"; VString "b"];
                                  VSlice [VString "c"; VString "d"]]]}) ∧
   ¬ holdsSupplied {["pair" := VSlice [VSlice [VString "a"; VString "b"];
                                       VSlice [VString "c"; VString "d"]]]}
       pairArg [[VString "a"; VString "b"]; [VString "c"; VString "d"]]) ∧
  (Action tagsArg = Append ∧
   ParseArgs namedActions (oneNamed "--tags" tagsArg) ["--tags"]
       ["--tags"; "a"; "--tags"; "b"] =
     Some (Ret {["tags" := VSlice [VSlice [VString "a"]; VSlice [VString "b"]]]}) ∧
   invokeAll namedActions tagsArg [[VString "a"]; [VString "b"]] ∅ =
     (Ret tt, {["tags" := VSlice [VSlice [VString "a"]; VSlice [VString "b"]]]}) ∧
   ¬ holdsSupplied {["tags" := VSlice [VSlice [VString "a"]; VSlice [VString "b"]]]}
       tagsArg [[VString "a"]; [VString "b"]]).
Proof.
  split.
  - split_and!; [done|vm_compute; reflexivity|vm_compute; reflexivity|].
    unfold holdsSupplied. simpl. rewrite lookup_singleton_eq. discriminate.
  - split_and!; [done|vm_compute; reflexivity|vm_compute; reflexivity|].
    unfold holdsSupplied. simpl. rewrite lookup_singleton_eq. discriminate.
Qed.

Lemma getArgs_ns (p : ArgumentParser) (a : Argument) (s : parsingState) :
  ns (getArgs p a s).2 = ns s.
Proof.
  unfold getArgs. repeat case_match; done.
Qed.

Lemma runAction_Store_present (T : ActionTable) (a : Argument) (s : parsingState)
    (vs : list value) (v : value) :
  Action a = Store → ns s !! Dest a = Some v →
  runAction T a s vs = (Fail (AlreadySet (Dest a) v), s).
Proof.
  intros Ha Hm. unfold runAction. rewrite (Store_present T a _ vs v Ha Hm).
  by rewrite with_ns_same.
Qed.

(** A store argument whose key is present never gets through [handle], and
    the mapping stays as it was. *)
Lemma handle_Store_present (T : ActionTable) (p : ArgumentParser) (a : Argument)
    (s : parsingState) (v : value) :
  Action a = Store → ns s !! Dest a = Some v →
  succeeded (handle T p a s).1 = false ∧ ns (handle T p a s).2 = ns s.
Proof.
  intros Ha Hm. unfold handle.
  pose proof (getArgs_ns p a s) as Hns.
  destruct (getArgs p a s) as [[vals| |] s1]; simpl in Hns; [|done..].
  assert (Hm1 : ns s1 !! Dest a = Some v) by by rewrite Hns.
  assert (Hrun : ∀ vs, runAction T a s1 vs = (Fail (AlreadySet (Dest a) v), s1))
    by (intros; by apply runAction_Store_present).
  unfold handleOne, handleAll.
  repeat case_match; rewrite ?Hrun; done.
Qed.

(** C4: the store action invoked on a key that is present fails with
    AlreadySet and leaves the mapping as it is; [handle] for such an
    argument cannot succeed nor change the mapping; and the second
    [--count] of ["--count","1","--count","2"] fails with AlreadySet. *)
Theorem C4_store_already_set (T : ActionTable) (p : ArgumentParser) (a : Argument)
    (s : parsingState) (vs : list value) (v : value) :
  Action a = Store →
  ns s !! Dest a = Some v →
  callAction T a (ns s) vs = (Fail (AlreadySet (Dest a) v), ns s) ∧
  runAction T a s vs = (Fail (AlreadySet (Dest a) v), s) ∧
  succeeded (handle T p a s).1 = false ∧
  ns (handle T p a s).2 = ns s ∧
  ParseArgs T countParser ["-c"; "--count"] ["--count"; "1"; "--count"; "2"] =
    Some (Fail (AlreadySet "count" (VString "1"))) ∧
  ParseArgs T countParser ["--count"; "-c"] ["--count"; "1"; "--count"; "2"] =
    Some (Fail (AlreadySet "count" (VString "1"))).
Proof.
  intros Ha Hm.
  split; [by apply Store_present|].
  split; [by apply runAction_Store_present|].
  destruct (handle_Store_present T p a s v Ha Hm) as [H1 H2].
  split; [done|]. split; [done|].
  destruct T; split; vm_compute; reflexivity.
Qed.

Lemma C4_store_already_set_witness :
  callAction funcActions countArg (<["count" := VString "1"]> ∅) [VString "2"] =
    (Fail (AlreadySet "count" (VString "1")), <["count" := VString "1"]> ∅).
Proof.
  exact (proj1 (C4_store_already_set funcActions countParser countArg
    {| args := ["--count"; "1"; "--count"; "2"]; argi := 4;
       ns := <["count" := VString "1"]> ∅; posi := 0 |}
    [VString "2"] (VString "1") eq_refl eq_refl)).
Defined.

(** ** Token consumption *)

(** The tokens before index [scanValues] are values, the token at that
    index (if any) is a named argument. *)
Lemma scanValues_spec (p : ArgumentParser) (r : list string) :
  r = take (scanValues p r) r ++ drop (scanValues p r) r ∧
  Forall (λ tok, isNamed p tok = false) (take (scanValues p r) r) ∧
  match drop (scanValues p r) r with
  | [] => True
  | tok :: _ => isNamed p tok = true
  end.
Proof.
  split; [by rewrite take_drop|].
  induction r as [|tok r [IH1 IH2]]; simpl; [done|].
  destruct (isNamed p tok) eqn:Hn; simpl; [done|].
  split; [by constructor|done].
Qed.

Lemma length_take_scanValues (p : ArgumentParser) (r : list string) :
  length (take (scanValues p r) r) = scanValues p r.
Proof.
  induction r as [|tok r IH]; simpl; [done|].
  destruct (isNamed p tok); simpl; [done|by rewrite IH].
Qed.

Lemma remainder_with_argi (s : parsingState) (n : nat) :
  remainder (with_argi s (argi s + n)) = drop n (remainder s).
Proof. unfold remainder. simpl. by rewrite drop_drop. Qed.

(** [getArgs] for an argument that takes a run of values. *)
Lemma getArgs_run (p : ArgumentParser) (a : Argument) (s : parsingState) :
  Nargs a = ZeroOrMore ∨ Nargs a = OneOrMore ∧ remainder s ≠ [] →
  getArgs p a s =
    (Ret (take (scanValues p (remainder s)) (remainder s)),
     with_argi s (argi s + scanValues p (remainder s))).
Proof.
  intros Hn. unfold getArgs.
  destruct Hn as [Hn|[Hn Hr]]; rewrite Hn; simpl.
  - destruct (remainder s) as [|tok r] eqn:Hrem; simpl.
    + by rewrite Nat.add_0_r, with_argi_same.
    + done.
  - destruct (remainder s) as [|tok r] eqn:Hrem; [done|]. simpl. done.
Qed.

(** C1: an argument of zero-or-more or one-or-more arity takes exactly the
    maximal run of tokens under the cursor that are not option strings of
    a named argument: the run consists of such tokens only, the token after
    it (if any) is a named argument's and stays under the cursor ([getArgs]
    fails only for one-or-more with no token left, and takes nothing
    then); and on ["--flag","a","b","--other"] the values "a" and "b" go
    to [--flag] while [--other] is dispatched as the named argument it
    is. *)
Theorem C1_variadic_run_stops_at_named (p : ArgumentParser) (a : Argument)
    (s : parsingState) :
  Nargs a = ZeroOrMore ∨ Nargs a = OneOrMore →
  (∃ run rest r s',
     getArgs p a s = (r, s') ∧
     (r = Ret run ∨
      r = Fail (ExpectedAtLeastOne (Dest a)) ∧ Nargs a = OneOrMore ∧ remainder s = []) ∧
     remainder s = run ++ rest ∧
     Forall (λ tok, Optionals p !! tok = None) run ∧
     match rest with [] => True | tok :: _ => is_Some (Optionals p !! tok) end ∧
     argi s' = (argi s + length run)%nat ∧
     remainder s' = rest ∧
     args s' = args s ∧ ns s' = ns s ∧ posi s' = posi s) ∧
  (∀ T order, order = ["--flag"; "--other"] ∨ order = ["--other"; "--flag"] →
     ParseArgs T flagParser order ["--flag"; "a"; "b"; "--other"] =
       Some (Ret (<["other" := VSlice [VBool true]]>
                    (<["flag" := VSlice [VString "a"; VString "b"]]> ∅)))).
Proof.
  intros Hn. split.
  - destruct (decide (Nargs a = OneOrMore ∧ remainder s = [])) as [[Hone Hempty]|Hrun].
    + exists [], [], (Fail (ExpectedAtLeastOne (Dest a))), s.
      split. { unfold getArgs. by rewrite Hone, Hempty. }
      split; [by right|]. rewrite Hempty.
      repeat split; try done; simpl; lia.
    + assert (Nargs a = ZeroOrMore ∨ Nargs a = OneOrMore ∧ remainder s ≠ []) as Hn'.
      { destruct Hn as [?|?]; [by left|]. right. split; [done|]. intros ?. by apply Hrun. }
      destruct (scanValues_spec p (remainder s)) as (Hsplit & Hvals & Hnext).
      eexists _, _, _, _. split; [by apply getArgs_run|].
      split; [by left|]. split; [exact Hsplit|]. split.
      { eapply Forall_impl; [exact Hvals|]. intros tok Htok. unfold isNamed in Htok.
        apply bool_decide_eq_false in Htok. by apply eq_None_not_Some. }
      split.
      { destruct (drop _ _) as [|tok rest]; [done|].
        unfold isNamed in Hnext. by apply bool_decide_eq_true in Hnext. }
      split; [simpl; by rewrite length_take_scanValues|].
      split; [apply remainder_with_argi|done].
  - intros T order [->| ->]; destruct T; vm_compute; reflexivity.
Qed.

Lemma C1_variadic_run_stops_at_named_witness :
  ParseArgs funcActions flagParser ["--flag"; "--other"] ["--flag"; "a"; "b"; "--other"] =
    Some (Ret (<["other" := VSlice [VBool true]]>
                 (<["flag" := VSlice [VString "a"; VString "b"]]> ∅))).
Proof.
  exact (proj2 (C1_variadic_run_stops_at_named flagParser flagArg
    {| args := ["--flag"; "a"; "b"; "--other"]; argi := 1; ns := ∅; posi := 0 |}
    (or_introl eq_refl)) funcActions ["--flag"; "--other"] (or_introl eq_refl)).
Defined.



(** ** The flag actions *)

Lemma handle_arity_zero (T : ActionTable) (p : ArgumentParser) (a : Argument)
    (s : parsingState) :
  Nargs a = 0 → handle T p a s = runAction T a s [Const a].
Proof.
  intros Hn. unfold handle, getArgs. rewrite Hn.
  destruct (Z.ltb_spec (Z.of_nat (length (remainder s))) 0) as [Hlt|_]; [lia|done].
Qed.

(** For an arity-zero argument [handle] passes the one-element list
    [[Const a]]; the function [StoreTrue] and both [StoreFalse] reject every
    non-empty list, so the flag can never be given. *)
Lemma flag_rejected (T : ActionTable) (p : ArgumentParser) (a : Argument)
    (s : parsingState) :
  Nargs a = 0 →
  (T = funcActions ∧ Action a = StoreTrue) ∨ Action a = StoreFalse →
  handle T p a s = (Fail (NoValuesExpected (Dest a) 1), s).
Proof.
  intros Hn Hact. rewrite handle_arity_zero by done.
  unfold runAction, callAction.
  destruct Hact as [[-> ->]| ->]; [|destruct T]; by destruct s.
Qed.

(** C2, evaluated: [--verbose] declared with "store_true" fails under the
    function [StoreTrue], and [--quiet] declared with "store_false" fails
    under both revisions, with "no values expected ... but got 1"; only the
    named [StoreTrue] takes the one value [handle] passes. *)
Theorem C2_flag_action_rejects_its_constant :
  ParseArgs funcActions verboseParser ["--verbose"] ["--verbose"] =
    Some (Fail (NoValuesExpected "verbose" 1)) ∧
  ParseArgs funcActions quietParser ["--quiet"] ["--quiet"] =
    Some (Fail (NoValuesExpected "quiet" 1)) ∧
  ParseArgs namedActions quietParser ["--quiet"] ["--quiet"] =
    Some (Fail (NoValuesExpected "quiet" 1)) ∧
  ParseArgs namedActions verboseParser ["--verbose"] ["--verbose"] =
    Some (Ret (<["verbose" := VBool true]> ∅)).
Proof. repeat split; vm_compute; reflexivity. Qed.

(** ** The resolution pass *)

Lemma resolveArgs_app (T : ActionTable) (l1 l2 : list Argument) (m : gmap string value) :
  resolveArgs T (l1 ++ l2) m =
    match resolveArgs T l1 m with
    | (Ret _, m1) => resolveArgs T l2 m1
    | r => r
    end.
Proof.
  revert m. induction l1 as [|a l1 IH]; intros m; simpl; [done|].
  destruct (resolveArg T a m) as [[[]| |] m1]; [apply IH|done..].
Qed.

Lemma iteration_order_two (k1 k2 : string) (a1 a2 : Argument) (pos : list Argument) :
  k1 ≠ k2 →
  iteration_order {| Optionals := <[k1 := a1]> (<[k2 := a2]> ∅); Positionals := pos |} [k1; k2] ∧
  iteration_order {| Optionals := <[k1 := a1]> (<[k2 := a2]> ∅); Positionals := pos |} [k2; k1].
Proof.
  intros Hne.
  assert (Hdom : ∀ k, is_Some ((<[k1 := a1]> (<[k2 := a2]> ∅) : gmap string Argument) !! k)
                      ↔ k = k1 ∨ k = k2).
  { intros k. rewrite lookup_insert_is_Some', lookup_insert_is_Some', lookup_empty.
    rewrite is_Some_alt. naive_solver. }
  split; (split; [repeat constructor; set_solver|]); intros k; simpl; rewrite Hdom; set_solver.
Qed.

Lemma parseLoop_no_tokens (T : ActionTable) (p : ArgumentParser) (fuel : nat) :
  parseLoop T p fuel (init []) = Some (Ret tt, init []).
Proof. by destruct fuel. Qed.

Lemma allArgs_oneNamed (k : string) (a : Argument) : allArgs (oneNamed k a) [k] = [a].
Proof.
  unfold allArgs, getOptionals, oneNamed. simpl. rewrite lookup_singleton_eq.
  done.
Qed.

(** C5, as the code has it: when the resolution pass reaches a required
    argument and its key is absent, the parse fails with MissingRequired
    for that key; a registry with one required named argument parsed
    against no token fails so. *)
Theorem C5_required_absent_when_reached (T : ActionTable) (a : Argument) :
  Required a = true →
  (∀ p order fuel s s1 pre post m1,
     parseLoop T p fuel s = Some (Ret tt, s1) →
     allArgs p order = pre ++ a :: post →
     resolveArgs T pre (ns s1) = (Ret tt, m1) →
     m1 !! Dest a = None →
     parseFrom T p order fuel s = Some (Fail (MissingRequired (Dest a)), with_ns s1 m1)) ∧
  (∀ k, ParseArgs T (oneNamed k a) [k] [] = Some (Fail (MissingRequired (Dest a)))).
Proof.
  intros Hreq. split.
  - intros p order fuel s s1 pre post m1 Hloop Hall Hpre Habsent.
    unfold parseFrom. rewrite Hloop, Hall, resolveArgs_app, Hpre. simpl.
    unfold resolveArg, Namespace.Get. by rewrite Habsent, Hreq.
  - intros k. unfold ParseArgs, parse, parseFrom.
    rewrite parseLoop_no_tokens, allArgs_oneNamed. simpl.
    unfold resolveArg, Namespace.Get. simpl. by rewrite lookup_empty, Hreq.
Qed.

Lemma C5_required_absent_when_reached_witness :
  ParseArgs funcActions (oneNamed "--log-file" logFileRequired) ["--log-file"] [] =
    Some (Fail (MissingRequired "logfile")).
Proof.
  exact (proj2 (C5_required_absent_when_reached funcActions logFileRequired eq_refl)
           "--log-file").
Defined.

(** C5, as stated, fails: [--log-file] is required and its key "logfile"
    is absent once the (empty) token sequence is consumed, but the pass
    visits [--logfile] first, whose default fills the same key, and the
    parse succeeds. *)
Lemma C5_required_key_filled_by_other_default :
  bothTables (λ T,
    iteration_order requiredSharedParser ["--logfile"; "--log-file"] ∧
    logFileRequired ∈ allArgs requiredSharedParser ["--logfile"; "--log-file"] ∧
    Required logFileRequired = true ∧
    parseLoop T requiredSharedParser (parseFuel requiredSharedParser []) (init []) =
      Some (Ret tt, init []) ∧
    ns (init []) !! Dest logFileRequired = None ∧
    ParseArgs T requiredSharedParser ["--logfile"; "--log-file"] [] =
      Some (Ret (<["logfile" := VString "app.log"]> ∅))).
Proof.
  split.
  all: split; [apply (iteration_order_two "--log-file" "--logfile"); discriminate|].
  all: split; [vm_compute; set_solver|].
  all: split; [done|]; split; [done|]; split; [done|].
  all: vm_compute; reflexivity.
Qed.

(** C6, as the code has it: when the resolution pass reaches a
    non-required argument with a non-nil default and its key is absent, the
    argument's action is invoked with the default as its single value; a
    registry with one such named argument of store action and arity one,
    parsed against no token, yields the mapping from its key to the
    default; for any other arity it yields the mapping from the key to the
    one-element sequence of the default. *)
Theorem C6_default_injected_when_reached (T : ActionTable) (a : Argument) :
  Required a = false →
  Default a ≠ VNil →
  (∀ m, m !! Dest a = None → resolveArg T a m = callAction T a m [Default a]) ∧
  (∀ pre post m0 m1,
     resolveArgs T pre m0 = (Ret tt, m1) →
     m1 !! Dest a = None →
     resolveArgs T (pre ++ a :: post) m0 =
       match callAction T a m1 [Default a] with
       | (Ret _, m2) => resolveArgs T post m2
       | r => r
       end) ∧
  (Action a = Store → Nargs a = 1 →
   ∀ k, ParseArgs T (oneNamed k a) [k] [] = Some (Ret {[Dest a := Default a]})) ∧
  (Action a = Store → Nargs a ≠ 1 →
   ∀ k, ParseArgs T (oneNamed k a) [k] [] = Some (Ret {[Dest a := VSlice [Default a]]})).
Proof.
  intros Hreq Hdef.
  assert (Hstep : ∀ m, m !! Dest a = None → resolveArg T a m = callAction T a m [Default a]).
  { intros m Hm. unfold resolveArg, Namespace.Get. rewrite Hm, Hreq.
    by destruct (Default a). }
  split; [done|]. split_and!.
  - intros pre post m0 m1 Hpre Hm. rewrite resolveArgs_app, Hpre. simpl.
    by rewrite Hstep.
  - intros Hact Hn k. unfold ParseArgs, parse, parseFrom.
    rewrite parseLoop_no_tokens, allArgs_oneNamed. simpl.
    rewrite Hstep by apply lookup_empty.
    rewrite Store_absent by (done || apply lookup_empty).
    unfold getArgValueForNS. rewrite Hn. simpl. by rewrite insert_empty.
  - intros Hact Hn k. unfold ParseArgs, parse, parseFrom.
    rewrite parseLoop_no_tokens, allArgs_oneNamed. simpl.
    rewrite Hstep by apply lookup_empty.
    rewrite Store_absent by (done || apply lookup_empty).
    unfold getArgValueForNS.
    destruct (Nargs a =? 1) eqn:He; [by apply Z.eqb_eq in He|].
    simpl. by rewrite insert_empty.
Qed.

Lemma C6_default_injected_when_reached_witness :
  ParseArgs funcActions (oneNamed "--logfile" logfileArg) ["--logfile"] [] =
    Some (Ret {["logfile" := VString "app.log"]}).
Proof.
  exact (proj1 (proj2 (proj2 (C6_default_injected_when_reached funcActions logfileArg
           eq_refl ltac:(discriminate)))) eq_refl eq_refl "--logfile").
Defined.

(** C6, as stated, fails twice. The key "logfile" of [--log-file], which
    has the default "other.log", is absent once the tokens are consumed,
    but the pass visits [--logfile] first and fills the key, so the action
    of [--log-file] is not invoked. And one named argument with default "x"
    declared without an action keeps arity zero, for which the store
    action writes the sequence ["x"], not "x". *)
Lemma C6_default_not_injected_or_wrapped :
  bothTables (λ T,
    (iteration_order defaultSharedParser ["--logfile"; "--log-file"] ∧
     logFileDefault ∈ allArgs defaultSharedParser ["--logfile"; "--log-file"] ∧
     ns (init []) !! Dest logFileDefault = None ∧
     resolveArg T logFileDefault (<["logfile" := VString "app.log"]> ∅) =
       (Ret tt, <["logfile" := VString "app.log"]> ∅) ∧
     ParseArgs T defaultSharedParser ["--logfile"; "--log-file"] [] =
       Some (Ret (<["logfile" := VString "app.log"]> ∅))) ∧
    (ParseArgs T nameParser ["--name"] [] = Some (Ret (<["name" := VSlice [VString "x"]]> ∅)) ∧
     (<["name" := VSlice [VString "x"]]> ∅ : gmap string value) ≠ <["name" := VString "x"]> ∅)).
Proof.
  assert (Hne : (<["name" := VSlice [VString "x"]]> ∅ : gmap string value)
                ≠ <["name" := VString "x"]> ∅).
  { intros Heq. apply (f_equal (λ m : gmap string value, m !! "name")) in Heq.
    rewrite !lookup_insert_eq in Heq. discriminate. }
  split.
  all: split; [|split; [vm_compute; reflexivity|exact Hne]].
  all: split; [apply (iteration_order_two "--log-file" "--logfile"); discriminate|].
  all: split; [vm_compute; set_solver|]; split; [done|].
  all: split; vm_compute; reflexivity.
Qed.

(** ** Termination of the main loop *)

Lemma getArgs_progress (p : ArgumentParser) (a : Argument) (s s1 : parsingState)
    (r : res (list string)) :
  getArgs p a s = (r, s1) →
  args s1 = args s ∧ (argi s ≤ argi s1)%nat ∧ posi s1 = posi s.
Proof.
  unfold getArgs. intros H.
  repeat case_match; simplify_eq; simpl; (split; [done|split; [lia|done]]).
Qed.

Lemma runAction_frame (T : ActionTable) (a : Argument) (s s1 : parsingState)
    (vs : list value) (r : res unit) :
  runAction T a s vs = (r, s1) →
  args s1 = args s ∧ argi s1 = argi s ∧ posi s1 = posi s.
Proof.
  unfold runAction. destruct (callAction T a (ns s) vs) as [r' m].
  intros H. by simplify_eq.
Qed.

Lemma handle_progress (T : ActionTable) (p : ArgumentParser) (a : Argument)
    (s s1 : parsingState) (r : res unit) :
  handle T p a s = (r, s1) →
  args s1 = args s ∧ (argi s ≤ argi s1)%nat ∧ posi s1 = posi s.
Proof.
  unfold handle. intros H.
  destruct (getArgs p a s) as [vals s0] eqn:Hg.
  apply getArgs_progress in Hg as (Ha & Hi & Hp).
  assert (Hkeep : args s0 = args s ∧ (argi s ≤ argi s0)%nat ∧ posi s0 = posi s) by done.
  assert (Hrun : ∀ vs, runAction T a s0 vs = (r, s1) →
                       args s1 = args s ∧ (argi s ≤ argi s1)%nat ∧ posi s1 = posi s).
  { intros vs Hr. apply runAction_frame in Hr as (-> & -> & ->). done. }
  unfold handleOne, handleAll in H.
  repeat case_match; simplify_eq; eauto.
Qed.

(** A turn of the loop that does not fail leaves the tokens as they are,
    never moves the cursor or the positional index back, and moves one of
    them forward. *)
Lemma parseToken_progress (T : ActionTable) (p : ArgumentParser)
    (s s1 : parsingState) (tok : string) :
  args s !! argi s = Some tok →
  parseToken T p s tok = (Ret tt, s1) →
  args s1 = args s ∧ (argi s ≤ argi s1)%nat ∧ (posi s ≤ posi s1)%nat ∧
  (remaining p s1 < remaining p s)%nat.
Proof.
  intros Htok H. apply lookup_lt_Some in Htok.
  unfold parseToken in H. unfold remaining.
  destruct (Optionals p !! tok) as [a|].
  - apply handle_progress in H as (Ha & Hi & Hp). simpl in *.
    rewrite Ha, Hp. repeat split; lia.
  - destruct (Positionals p !! posi s) as [a|] eqn:Hpos; [|done].
    apply lookup_lt_Some in Hpos.
    apply handle_progress in H as (Ha & Hi & Hp). simpl in *.
    rewrite Ha, Hp. repeat split; lia.
Qed.

Lemma parseLoop_total (T : ActionTable) (p : ArgumentParser) (fuel : nat)
    (s : parsingState) :
  (remaining p s ≤ fuel)%nat → ∃ r s1, parseLoop T p fuel s = Some (r, s1).
Proof.
  revert s. induction fuel as [|fuel IH]; intros s Hfuel.
  - simpl. destruct (args s !! argi s) as [tok|] eqn:Htok; [|eauto].
    apply lookup_lt_Some in Htok. unfold remaining in Hfuel. lia.
  - simpl. destruct (args s !! argi s) as [tok|] eqn:Htok; [|eauto].
    destruct (parseToken T p s tok) as [[[]| |] s1] eqn:Hstep; [|eauto..].
    apply IH. apply (parseToken_progress T p s s1 tok Htok) in Hstep. lia.
Qed.

Lemma parseLoop_more_fuel (T : ActionTable) (p : ArgumentParser) (fuel fuel' : nat)
    (s : parsingState) (r : res unit * parsingState) :
  parseLoop T p fuel s = Some r → (fuel ≤ fuel')%nat → parseLoop T p fuel' s = Some r.
Proof.
  revert fuel' s. induction fuel as [|fuel IH]; intros fuel' s H Hle.
  - destruct fuel'; simpl in *; by destruct (args s !! argi s).
  - destruct fuel' as [|fuel']; [lia|]. simpl in *.
    destruct (args s !! argi s) as [tok|]; [|done].
    destruct (parseToken T p s tok) as [[[]| |] s1]; [|done..].
    apply IH; [done|lia].
Qed.

Lemma callAction_no_panic (T : ActionTable) (a : Argument) (m : gmap string value)
    (vs : list value) :
  panicked (callAction T a m vs).1 = false.
Proof.
  unfold callAction, FuncAction.Append, FuncAction.Store, FuncAction.StoreTrue,
    FuncAction.StoreFalse, NamedAction.Append, NamedAction.Store,
    NamedAction.StoreTrue, NamedAction.StoreFalse.
  repeat case_match; done.
Qed.

Lemma runAction_no_panic (T : ActionTable) (a : Argument) (s : parsingState)
    (vs : list value) :
  panicked (runAction T a s vs).1 = false.
Proof.
  unfold runAction. pose proof (callAction_no_panic T a (ns s) vs) as H.
  by destruct (callAction T a (ns s) vs).
Qed.

Lemma createValue_no_panic (a : Argument) (arg : string) :
  panicked (createValue a arg) = false.
Proof. unfold createValue. repeat case_match; done. Qed.

Lemma createValues_no_panic (a : Argument) (vals : list string) :
  panicked (createValues a vals) = false.
Proof.
  induction vals as [|arg vals IH]; simpl; [done|].
  pose proof (createValue_no_panic a arg).
  destruct (createValue a arg); [|done..].
  by destruct (createValues a vals).
Qed.

Lemma getArgs_no_panic (p : ArgumentParser) (a : Argument) (s : parsingState) :
  isValidNarg (Nargs a) = true → panicked (getArgs p a s).1 = false.
Proof.
  unfold isValidNarg, ZeroOrOne. intros Hv%Z.leb_le. unfold getArgs.
  repeat case_match; try done.
  unfold ZeroOrOne, ZeroOrMore, OneOrMore in *.
  repeat match goal with
  | H : (_ =? _) = false |- _ => apply Z.eqb_neq in H
  | H : (_ <? _) = true |- _ => apply Z.ltb_lt in H
  | H : (_ || _) = false |- _ => apply orb_false_iff in H as [? ?]
  end. lia.
Qed.

Lemma handle_no_panic (T : ActionTable) (p : ArgumentParser) (a : Argument)
    (s : parsingState) :
  isValidNarg (Nargs a) = true → panicked (handle T p a s).1 = false.
Proof.
  intros Hv. unfold handle.
  pose proof (getArgs_no_panic p a s Hv) as Hg.
  destruct (getArgs p a s) as [[vals| |] s0]; [|done..].
  assert (Hone : ∀ arg, panicked (handleOne T a s0 arg).1 = false).
  { intros arg. unfold handleOne. pose proof (createValue_no_panic a arg).
    destruct (createValue a arg); [apply runAction_no_panic|done..]. }
  assert (Hall : ∀ l, panicked (handleAll T a s0 l).1 = false).
  { intros l. unfold handleAll. pose proof (createValues_no_panic a l).
    destruct (createValues a l); [apply runAction_no_panic|done..]. }
  repeat case_match; auto using runAction_no_panic.
Qed.

Lemma parseToken_no_panic (T : ActionTable) (p : ArgumentParser) (s : parsingState)
    (tok : string) :
  validNargs p → panicked (parseToken T p s tok).1 = false.
Proof.
  intros [Hopt Hpos]. unfold parseToken.
  destruct (Optionals p !! tok) as [a|] eqn:Ha.
  - apply handle_no_panic. by eapply Hopt.
  - destruct (Positionals p !! posi s) as [a|] eqn:Hp; [|done].
    apply handle_no_panic. rewrite Forall_lookup in Hpos. by eapply Hpos.
Qed.

Lemma parseLoop_no_panic (T : ActionTable) (p : ArgumentParser) (fuel : nat)
    (s s1 : parsingState) (r : res unit) :
  validNargs p → parseLoop T p fuel s = Some (r, s1) → panicked r = false.
Proof.
  intros Hv. revert s. induction fuel as [|fuel IH]; intros s H; simpl in H.
  - destruct (args s !! argi s); by simplify_eq.
  - destruct (args s !! argi s) as [tok|]; [|by simplify_eq].
    pose proof (parseToken_no_panic T p s tok Hv) as Hstep.
    destruct (parseToken T p s tok) as [[[]| |] s2]; [by eapply IH|by simplify_eq|done].
Qed.

Lemma resolveArgs_no_panic (T : ActionTable) (l : list Argument) (m : gmap string value) :
  panicked (resolveArgs T l m).1 = false.
Proof.
  revert m. induction l as [|a l IH]; intros m; simpl; [done|].
  assert (Hstep : panicked (resolveArg T a m).1 = false).
  { unfold resolveArg. repeat case_match; try done; apply callAction_no_panic. }
  destruct (resolveArg T a m) as [[[]| |] m1]; [apply IH|done..].
Qed.

(** C9: [parse] ends for every parser and every token sequence; the fuel
    [parseFuel] is enough and more fuel changes nothing. Every turn of the
    main loop that goes on keeps the tokens, moves neither the cursor nor
    the positional index back and moves one of them forward, so that what
    remains strictly decreases. When every arity is one that [Nargs]
    accepts, the parse returns: it does not panic. *)
Theorem C9_parse_terminates (T : ActionTable) (p : ArgumentParser)
    (order tokens : list string) :
  (∃ r s,
     parse T p order tokens = Some (r, s) ∧
     (∀ fuel, (parseFuel p tokens ≤ fuel)%nat →
        parseFrom T p order fuel (init tokens) = Some (r, s)) ∧
     (validNargs p → panicked r = false)) ∧
  (∀ s s1 tok,
     args s !! argi s = Some tok →
     parseToken T p s tok = (Ret tt, s1) →
     args s1 = args s ∧ (argi s ≤ argi s1)%nat ∧ (posi s ≤ posi s1)%nat ∧
     (remaining p s1 < remaining p s)%nat).
Proof.
  split; [|intros s s1 tok; apply parseToken_progress].
  destruct (parseLoop_total T p (parseFuel p tokens) (init tokens)) as (r0 & s0 & Hloop).
  { unfold remaining, parseFuel. simpl. lia. }
  assert (Hmore : ∀ fuel, (parseFuel p tokens ≤ fuel)%nat →
            parseLoop T p fuel (init tokens) = Some (r0, s0))
    by (intros; by eapply parseLoop_more_fuel).
  unfold parse, parseFrom. rewrite Hloop.
  destruct r0 as [[]|e|].
  - pose proof (resolveArgs_no_panic T (allArgs p order) (ns s0)) as Hres.
    destruct (resolveArgs T (allArgs p order) (ns s0)) as [r m] eqn:Hr.
    eexists _, _. split; [done|]. split; [|done].
    intros fuel Hfuel. by rewrite (Hmore fuel Hfuel), Hr.
  - eexists _, _. split; [done|]. split; [|done].
    intros fuel Hfuel. by rewrite (Hmore fuel Hfuel).
  - eexists _, _. split; [done|]. split.
    + intros fuel Hfuel. by rewrite (Hmore fuel Hfuel).
    + intros Hv. by eapply parseLoop_no_panic.
Qed.

(** ** The order of the resolution pass *)

(** An action reads and writes the key of its argument only. *)
Lemma callAction_shape (T : ActionTable) (a : Argument) (vs : list value)
    (o : option value) :
  ∃ r w, ∀ m, m !! Dest a = o → callAction T a m vs = (r, upd (Dest a) w m).
Proof.
  unfold callAction.
  destruct T, (Action a).
  - eexists (Ret tt), (Some _). intros m Hm. unfold FuncAction.Append, Namespace.Append.
    rewrite Hm. reflexivity.
  - destruct o as [v|].
    + exists (Fail (AlreadySet (Dest a) v)), None. intros m Hm.
      unfold FuncAction.Store, Namespace.Get. by rewrite Hm.
    + eexists (Ret tt), (Some _). intros m Hm.
      unfold FuncAction.Store, Namespace.Get. rewrite Hm. reflexivity.
  - unfold FuncAction.StoreTrue. destruct (0 <? length vs)%nat.
    + by eexists _, None.
    + by eexists _, (Some _).
  - unfold FuncAction.StoreFalse. destruct (0 <? length vs)%nat.
    + by eexists _, None.
    + by eexists _, (Some _).
  - eexists (Ret tt), (Some _). intros m Hm. unfold NamedAction.Append, Namespace.Append.
    rewrite Hm. reflexivity.
  - destruct o as [v|].
    + exists (Fail (AlreadySet (Dest a) v)), None. intros m Hm.
      unfold NamedAction.Store, Namespace.Get. by rewrite Hm.
    + eexists (Ret tt), (Some _). intros m Hm.
      unfold NamedAction.Store, Namespace.Get. rewrite Hm. reflexivity.
  - unfold NamedAction.StoreTrue.
    destruct vs as [|[] [|]]; first [by eexists _, None | by eexists _, (Some _)].
  - unfold NamedAction.StoreFalse. destruct (0 <? length vs)%nat.
    + by eexists _, None.
    + by eexists _, (Some _).
Qed.

Lemma resolveArg_shape (T : ActionTable) (a : Argument) (o : option value) :
  ∃ r w, ∀ m, m !! Dest a = o → resolveArg T a m = (r, upd (Dest a) w m).
Proof.
  unfold resolveArg, Namespace.Get.
  destruct o as [v|].
  - exists (Ret tt), None. intros m Hm. by rewrite Hm.
  - destruct (Required a).
    + eexists _, None. intros m Hm. by rewrite Hm.
    + destruct (callAction_shape T a [Default a] None) as (r & w & Hcall).
      destruct (Default a) eqn:Hd.
      * exists (Ret tt), None. intros m Hm. by rewrite Hm.
      * exists r, w. intros m Hm. rewrite Hm. by apply Hcall.
      * exists r, w. intros m Hm. rewrite Hm. by apply Hcall.
      * exists r, w. intros m Hm. rewrite Hm. by apply Hcall.
      * exists r, w. intros m Hm. rewrite Hm. by apply Hcall.
Qed.

Lemma upd_lookup_ne (k k' : string) (w : option value) (m : gmap string value) :
  k ≠ k' → upd k w m !! k' = m !! k'.
Proof. intros Hne. destruct w; simpl; [by rewrite lookup_insert_ne|done]. Qed.

Lemma upd_comm (k1 k2 : string) (w1 w2 : option value) (m : gmap string value) :
  k1 ≠ k2 → upd k1 w1 (upd k2 w2 m) = upd k2 w2 (upd k1 w1 m).
Proof. intros Hne. destruct w1, w2; simpl; try done. by apply insert_insert_ne. Qed.

Lemma okMap_cons (T : ActionTable) (a : Argument) (l : list Argument)
    (m : gmap string value) :
  okMap (resolveArgs T (a :: l) m) =
    okMap (resolveArg T a m) ≫= λ m1, okMap (resolveArgs T l m1).
Proof.
  simpl. unfold okMap at 2. by destruct (resolveArg T a m) as [[[]| |] m1].
Qed.

Lemma okMap_app (T : ActionTable) (l1 l2 : list Argument) (m : gmap string value) :
  okMap (resolveArgs T (l1 ++ l2) m) =
    okMap (resolveArgs T l1 m) ≫= λ m1, okMap (resolveArgs T l2 m1).
Proof.
  rewrite resolveArgs_app. unfold okMap at 2.
  by destruct (resolveArgs T l1 m) as [[[]| |] m1].
Qed.

Lemma okMap_pair (r : res unit) (m : gmap string value) :
  okMap (r, m) = if succeeded r then Some m else None.
Proof. reflexivity. Qed.

(** Two steps of the pass on different keys can be exchanged. *)
Lemma resolveArg_swap (T : ActionTable) (x y : Argument) (m : gmap string value) :
  Dest x ≠ Dest y →
  (okMap (resolveArg T x m) ≫= λ m1, okMap (resolveArg T y m1)) =
  (okMap (resolveArg T y m) ≫= λ m1, okMap (resolveArg T x m1)).
Proof.
  intros Hne.
  destruct (resolveArg_shape T x (m !! Dest x)) as (rx & wx & Hx).
  destruct (resolveArg_shape T y (m !! Dest y)) as (ry & wy & Hy).
  assert (Hyx : resolveArg T y (upd (Dest x) wx m) = (ry, upd (Dest y) wy (upd (Dest x) wx m)))
    by (apply Hy; by apply upd_lookup_ne).
  assert (Hxy : resolveArg T x (upd (Dest y) wy m) = (rx, upd (Dest x) wx (upd (Dest y) wy m)))
    by (apply Hx; by apply upd_lookup_ne).
  rewrite (Hx m eq_refl), (Hy m eq_refl), !okMap_pair.
  destruct (succeeded rx) eqn:Hrx, (succeeded ry) eqn:Hry; cbn [mbind option_bind].
  - rewrite Hyx, Hxy, !okMap_pair, Hrx, Hry. f_equal. by apply upd_comm.
  - by rewrite Hyx, okMap_pair, Hry.
  - by rewrite Hxy, okMap_pair, Hrx.
  - done.
Qed.

Lemma resolveArgs_Permutation (T : ActionTable) (l1 l2 : list Argument) :
  l1 ≡ₚ l2 → NoDup (Dest <$> l1) →
  ∀ m, okMap (resolveArgs T l1 m) = okMap (resolveArgs T l2 m).
Proof.
  induction 1 as [|x l1 l2 Hperm IH|x y l|l1 l2 l3 H12 IH12 H23 IH23]; intros Hnd m.
  - done.
  - rewrite !okMap_cons. rewrite fmap_cons in Hnd. apply NoDup_cons in Hnd as [_ Hnd].
    destruct (okMap (resolveArg T x m)); simpl; [by apply IH|done].
  - rewrite !okMap_cons. rewrite !fmap_cons in Hnd.
    apply NoDup_cons in Hnd as [Hy _].
    assert (Dest x ≠ Dest y) as Hne by set_solver.
    pose proof (resolveArg_swap T y x m ltac:(done)) as Hswap.
    destruct (okMap (resolveArg T y m)) as [my|] eqn:Ey,
             (okMap (resolveArg T x m)) as [mx|] eqn:Ex; cbn [mbind option_bind] in *.
    + rewrite !okMap_cons.
      destruct (okMap (resolveArg T x my)) as [m1|],
               (okMap (resolveArg T y mx)) as [m2|];
        cbn [mbind option_bind] in *; by simplify_eq.
    + rewrite okMap_cons.
      destruct (okMap (resolveArg T x my)); cbn [mbind option_bind] in *; by simplify_eq.
    + rewrite okMap_cons.
      destruct (okMap (resolveArg T y mx)); cbn [mbind option_bind] in *; by simplify_eq.
    + done.
  - rewrite IH12 by done. apply IH23. by rewrite <- H12.
Qed.

(** The loop of [getOptionals] collects every argument of the map once. *)
Lemma getOptionals_range_spec (m : gmap string Argument) (order : list string)
    (acc : list Argument) (already : list nat) :
  (∀ k1 k2 a1 a2, m !! k1 = Some a1 → m !! k2 = Some a2 →
     addr a1 = addr a2 → a1 = a2) →
  (∀ a, a ∈ acc → ∃ k, m !! k = Some a) →
  (∀ n, n ∈ already ↔ ∃ a, a ∈ acc ∧ addr a = n) →
  NoDup acc →
  NoDup (getOptionals_range m order acc already) ∧
  ∀ a, a ∈ getOptionals_range m order acc already ↔
       a ∈ acc ∨ ∃ k, k ∈ order ∧ m !! k = Some a.
Proof.
  intros Hcoh. revert acc already.
  induction order as [|k order IH]; intros acc already Hrange Halready Hnd; simpl.
  - split; [done|]. intros a. split; [by left|]. intros [?|(k & Hk & _)]; [done|].
    by apply elem_of_nil in Hk.
  - destruct (m !! k) as [a0|] eqn:Hk.
    + case_bool_decide as Hin.
      * destruct (IH acc already Hrange Halready Hnd) as [IH1 IH2]. split; [done|].
        intros a. rewrite IH2. split.
        -- intros [?|(k' & Hk' & Ha)]; [by left|]. right. exists k'. split; [by right|done].
        -- intros [?|(k' & Hk' & Ha)]; [by left|].
           apply elem_of_cons in Hk' as [->|Hk']; [|right; eauto].
           left. assert (a = a0) as -> by congruence.
           apply Halready in Hin as (b & Hb & Haddr).
           destruct (Hrange b Hb) as (kb & Hkb).
           by rewrite <- (Hcoh kb k b a0 Hkb Hk Haddr).
      * assert (a0 ∉ acc) as Hfresh.
        { intros Ha0. apply Hin, Halready. eauto. }
        destruct (IH (acc ++ [a0]) (addr a0 :: already)) as [IH1 IH2].
        -- intros a Ha. apply elem_of_app in Ha as [Ha|Ha]; [by apply Hrange|].
           apply list_elem_of_singleton in Ha as ->. eauto.
        -- intros n. rewrite elem_of_cons, Halready. split.
           ++ intros [->|(b & Hb & Haddr)].
              ** exists a0. split; [apply elem_of_app; right; by left|done].
              ** exists b. split; [apply elem_of_app; by left|done].
           ++ intros (b & Hb & Haddr). apply elem_of_app in Hb as [Hb|Hb]; [right; eauto|].
              apply list_elem_of_singleton in Hb as ->. by left.
        -- apply NoDup_app. split; [done|]. split; [|apply NoDup_singleton].
           intros b Hb Hb'. apply list_elem_of_singleton in Hb' as ->. done.
        -- split; [done|]. intros a. rewrite IH2, elem_of_app, list_elem_of_singleton. split.
           ++ intros [[?| ->]|(k' & Hk' & Ha)]; [by left| |].
              ** right. exists k. split; [by left|done].
              ** right. exists k'. split; [by right|done].
           ++ intros [?|(k' & Hk' & Ha)]; [by left; left|].
              apply elem_of_cons in Hk' as [->|Hk']; [|right; eauto].
              left. right. by simplify_eq.
    + destruct (IH acc already Hrange Halready Hnd) as [IH1 IH2]. split; [done|].
      intros a. rewrite IH2. split.
      * intros [?|(k' & Hk' & Ha)]; [by left|]. right. exists k'. split; [by right|done].
      * intros [?|(k' & Hk' & Ha)]; [by left|].
        apply elem_of_cons in Hk' as [->|Hk']; [by simplify_eq|right; eauto].
Qed.

Lemma getOptionals_spec (p : ArgumentParser) (order : list string) :
  distinctKeys p →
  NoDup (Dest <$> getOptionals p order) ∧
  ∀ a, a ∈ getOptionals p order ↔ ∃ k, k ∈ order ∧ Optionals p !! k = Some a.
Proof.
  intros Hdk.
  destruct (getOptionals_range_spec (Optionals p) order [] []) as [Hnd Hel].
  - intros k1 k2 a1 a2 H1 H2 Haddr. eapply Hdk; eauto.
  - intros a Ha. by apply elem_of_nil in Ha.
  - intros n. split; [intros Hn; by apply elem_of_nil in Hn|].
    intros (a & Ha & _). by apply elem_of_nil in Ha.
  - constructor.
  - assert (Hel' : ∀ a, a ∈ getOptionals p order ↔
                        ∃ k, k ∈ order ∧ Optionals p !! k = Some a).
    { intros a. unfold getOptionals. rewrite Hel. split; [|eauto].
      intros [Ha|?]; [by apply elem_of_nil in Ha|done]. }
    split; [|done].
    apply NoDup_fmap_2_strong; [|done].
    intros a b Ha Hb Hdest. apply Hel' in Ha as (ka & _ & Hka).
    apply Hel' in Hb as (kb & _ & Hkb). eapply Hdk; eauto.
Qed.

Lemma getOptionals_Permutation (p : ArgumentParser) (o1 o2 : list string) :
  distinctKeys p → iteration_order p o1 → iteration_order p o2 →
  getOptionals p o1 ≡ₚ getOptionals p o2.
Proof.
  intros Hdk [_ H1] [_ H2].
  destruct (getOptionals_spec p o1 Hdk) as [Hnd1 Hel1].
  destruct (getOptionals_spec p o2 Hdk) as [Hnd2 Hel2].
  apply NoDup_Permutation.
  - by apply NoDup_fmap_1 in Hnd1.
  - by apply NoDup_fmap_1 in Hnd2.
  - intros a. rewrite Hel1, Hel2. split; intros (k & Hk & Ha); exists k; (split; [|done]).
    + apply H2. by rewrite Ha.
    + apply H1. by rewrite Ha.
Qed.

Lemma resultMapping_ParseArgs (T : ActionTable) (p : ArgumentParser)
    (order tokens : list string) :
  resultMapping (ParseArgs T p order tokens) =
    match parseLoop T p (parseFuel p tokens) (init tokens) with
    | Some (Ret _, s1) => okMap (resolveArgs T (allArgs p order) (ns s1))
    | _ => None
    end.
Proof.
  unfold ParseArgs, parse, parseFrom.
  destruct (parseLoop T p (parseFuel p tokens) (init tokens)) as [[[[]| |] s1]|]; try done.
  unfold okMap. by destruct (resolveArgs T (allArgs p order) (ns s1)) as [[[]| |] m].
Qed.

(** C8, as the code has it: when the named arguments are told apart by
    their keys, the outcome of a parse (the mapping it returns, or that it
    fails) is the same for every order in which the map of named arguments
    can be iterated. *)
Theorem C8_outcome_independent_of_map_order (T : ActionTable) (p : ArgumentParser)
    (o1 o2 tokens : list string) :
  distinctKeys p →
  iteration_order p o1 →
  iteration_order p o2 →
  resultMapping (ParseArgs T p o1 tokens) = resultMapping (ParseArgs T p o2 tokens).
Proof.
  intros Hdk H1 H2. rewrite !resultMapping_ParseArgs.
  destruct (parseLoop T p (parseFuel p tokens) (init tokens)) as [[[[]| |] s1]|]; try done.
  unfold allArgs. rewrite !okMap_app.
  rewrite (resolveArgs_Permutation T (getOptionals p o1) (getOptionals p o2)); [done| |].
  - by apply getOptionals_Permutation.
  - by apply getOptionals_spec.
Qed.

Lemma two_named_range (k1 k2 k : string) (a1 a2 a : Argument) :
  (<[k1 := a1]> (<[k2 := a2]> ∅) : gmap string Argument) !! k = Some a → a = a1 ∨ a = a2.
Proof.
  intros H. apply lookup_insert_Some in H as [[_ <-]|[_ H]]; [by left|].
  apply lookup_insert_Some in H as [[_ <-]|[_ H]]; [by right|].
  by rewrite lookup_empty in H.
Qed.

Lemma distinctKeys_two (k1 k2 : string) (a1 a2 : Argument) (pos : list Argument) :
  Dest a1 ≠ Dest a2 → addr a1 ≠ addr a2 →
  distinctKeys {| Optionals := <[k1 := a1]> (<[k2 := a2]> ∅); Positionals := pos |}.
Proof.
  intros Hd Ha ka kb x y Hx Hy Hor. simpl in *.
  apply two_named_range in Hx as [-> | ->], Hy as [-> | ->]; naive_solver.
Qed.

Lemma C8_outcome_independent_of_map_order_witness :
  resultMapping (ParseArgs funcActions flagParser ["--other"; "--flag"]
                   ["--flag"; "a"; "b"; "--other"]) =
  resultMapping (ParseArgs funcActions flagParser ["--flag"; "--other"]
                   ["--flag"; "a"; "b"; "--other"]).
Proof.
  apply C8_outcome_independent_of_map_order.
  - apply distinctKeys_two; discriminate.
  - apply (iteration_order_two "--other" "--flag"). discriminate.
  - apply (iteration_order_two "--other" "--flag"). discriminate.
Defined.

(** C8, as stated, fails: [--logfile] and [--log-file] derive the same key
    and both have a default; parsing no token twice, with the map of named
    arguments iterated in its two possible orders, yields two different
    mappings. With [--log-file] required instead, one order succeeds and
    the other fails. *)
Lemma C8_outcome_depends_on_map_order :
  bothTables (λ T,
    iteration_order defaultSharedParser ["--logfile"; "--log-file"] ∧
    iteration_order defaultSharedParser ["--log-file"; "--logfile"] ∧
    ParseArgs T defaultSharedParser ["--logfile"; "--log-file"] [] =
      Some (Ret (<["logfile" := VString "app.log"]> ∅)) ∧
    ParseArgs T defaultSharedParser ["--log-file"; "--logfile"] [] =
      Some (Ret (<["logfile" := VString "other.log"]> ∅)) ∧
    resultMapping (ParseArgs T defaultSharedParser ["--logfile"; "--log-file"] []) ≠
      resultMapping (ParseArgs T defaultSharedParser ["--log-file"; "--logfile"] []) ∧
    iteration_order requiredSharedParser ["--logfile"; "--log-file"] ∧
    iteration_order requiredSharedParser ["--log-file"; "--logfile"] ∧
    ParseArgs T requiredSharedParser ["--logfile"; "--log-file"] [] =
      Some (Ret (<["logfile" := VString "app.log"]> ∅)) ∧
    ParseArgs T requiredSharedParser ["--log-file"; "--logfile"] [] =
      Some (Fail (MissingRequired "logfile"))).
Proof.
  assert (Hne : Some (<["logfile" := VString "app.log"]> ∅ : gmap string value)
                ≠ Some (<["logfile" := VString "other.log"]> ∅)).
  { intros Heq. apply (inj Some) in Heq.
    apply (f_equal (λ m : gmap string value, m !! "logfile")) in Heq.
    rewrite !lookup_insert_eq in Heq. discriminate. }
  split.
  all: split; [apply (iteration_order_two "--log-file" "--logfile"); discriminate|].
  all: split; [apply (iteration_order_two "--log-file" "--logfile"); discriminate|].
  all: split; [vm_compute; reflexivity|]; split; [vm_compute; reflexivity|].
  all: split; [exact Hne|].
  all: split; [apply (iteration_order_two "--log-file" "--logfile"); discriminate|].
  all: split; [apply (iteration_order_two "--log-file" "--logfile"); discriminate|].
  all: split; vm_compute; reflexivity.
Qed.

Lemma validNargs_flagParser : validNargs flagParser.
Proof.
  split; [|constructor]. intros k a Ha. simpl in Ha.
  by apply two_named_range in Ha as [-> | ->].
Qed.

Lemma C9_parse_terminates_witness :
  ∃ r s,
    parse funcActions flagParser ["--flag"; "--other"] ["--flag"; "a"; "b"; "--other"] =
      Some (r, s) ∧
    panicked r = false.
Proof.
  destruct (C9_parse_terminates funcActions flagParser ["--flag"; "--other"]
              ["--flag"; "a"; "b"; "--other"]) as [(r & s & Hparse & _ & Hvalid) _].
  exists r, s. split; [exact Hparse|]. apply Hvalid. exact validNargs_flagParser.
Defined.

(** * Further properties of the declaration and lookup code *)

(** ** Registration *)

Lemma foldl_insert_lookup (a : Argument) (ops : list string) (m : gmap string Argument)
    (k : string) :
  foldl (λ m op, <[op := a]> m) m ops !! k =
    if decide (k ∈ ops) then Some a else m !! k.
Proof.
  revert m. induction ops as [|op ops IH]; intros m.
  - case_decide as Hin; [by apply elem_of_nil in Hin|done].
  - change (foldl (λ m op, <[op := a]> m) m (op :: ops))
      with (foldl (λ m op, <[op := a]> m) (<[op := a]> m) ops).
    rewrite IH.
    destruct (decide (k ∈ ops)) as [Hin|Hnin], (decide (k ∈ op :: ops)) as [Hin'|Hnin'];
      try done.
    + exfalso. apply Hnin'. by right.
    + apply elem_of_cons in Hin' as [->|?]; [apply lookup_insert_eq|done].
    + rewrite lookup_insert_ne; [done|]. intros ->. apply Hnin'. by left.
Qed.

Lemma existsb_registered (p : ArgumentParser) (ops : list string) :
  existsb (λ op, bool_decide (is_Some (Optionals p !! op))) ops = true ↔
  ∃ op, op ∈ ops ∧ is_Some (Optionals p !! op).
Proof.
  rewrite existsb_exists. split.
  - intros (op & Hin & Hop). exists op. split; [by apply list_elem_of_In|].
    by apply bool_decide_eq_true in Hop.
  - intros (op & Hin & Hop). exists op. split; [by apply list_elem_of_In|].
    by apply bool_decide_eq_true.
Qed.

Lemma AddArgument_inv (p p' : ArgumentParser) (a0 a : Argument) :
  AddArgument p a0 = Some (a, p') →
  OptionStrings a = OptionStrings a0 ∧ Optional a = Optional a0 ∧
  ((Optional a = true ∧
    existsb (λ op, bool_decide (is_Some (Optionals p !! op))) (OptionStrings a) = false ∧
    p' = {| Optionals := foldl (λ m op, <[op := a]> m) (Optionals p) (OptionStrings a);
            Positionals := Positionals p |}) ∨
   (Optional a = false ∧
    p' = {| Optionals := Optionals p; Positionals := Positionals p ++ [a] |})).
Proof.
  unfold AddArgument. intros H.
  set (a1 := if decide (Dest a0 = "") then _ else a0) in H.
  assert (Hops : OptionStrings a1 = OptionStrings a0) by (unfold a1; by case_decide).
  assert (Hopt : Optional a1 = Optional a0) by (unfold Optional; by rewrite Hops).
  destruct (Optional a1) eqn:Ho.
  - destruct (existsb _ (OptionStrings a1)) eqn:He; [done|]. simplify_eq.
    split; [done|]. split; [by rewrite Ho|]. left. by rewrite Ho.
  - simplify_eq. split; [done|]. split; [by rewrite Ho|]. right. by rewrite Ho.
Qed.

(** X1: a named argument that [AddArgument] accepts is found under every
    one of its option strings, all of which were free before; every other
    string leads where it led, so no earlier registration is replaced; the
    positional arguments stay as they are. *)
Theorem AddArgument_registers_named (p p' : ArgumentParser) (a0 a : Argument) :
  AddArgument p a0 = Some (a, p') →
  Optional a0 = true →
  (∀ op, op ∈ OptionStrings a0 → Optionals p !! op = None ∧ Optionals p' !! op = Some a) ∧
  (∀ k, k ∉ OptionStrings a0 → Optionals p' !! k = Optionals p !! k) ∧
  (∀ k b, Optionals p !! k = Some b → Optionals p' !! k = Some b) ∧
  Positionals p' = Positionals p.
Proof.
  intros Hadd Hopt.
  destruct (AddArgument_inv p p' a0 a Hadd) as (Hops & Ho & [(_ & Hfree & ->)|(Hno & _)]);
    [|congruence].
  rewrite Hops in *. simpl.
  assert (Hnone : ∀ op, op ∈ OptionStrings a0 → Optionals p !! op = None).
  { intros op Hin. destruct (Optionals p !! op) eqn:Hop; [|done].
    assert (existsb (λ op, bool_decide (is_Some (Optionals p !! op))) (OptionStrings a0) = true)
      as Hex by (apply existsb_registered; eauto).
    congruence. }
  repeat split.
  - by apply Hnone.
  - rewrite foldl_insert_lookup. by rewrite decide_True.
  - intros k Hk. rewrite foldl_insert_lookup. by rewrite decide_False.
  - intros k b Hb. rewrite foldl_insert_lookup.
    destruct (decide (k ∈ OptionStrings a0)) as [Hin|]; [|done].
    rewrite (Hnone k Hin) in Hb. done.
Qed.

Lemma AddArgument_registers_named_witness :
  Optionals dryRunParser !! "-n" = Some dryRunDeclared ∧
  Optionals dryRunParser !! "--dry-run" = Some dryRunDeclared.
Proof.
  assert (Hadd : AddArgument emptyParser (newArgument 0 ["-n"; "--dry-run"]) =
                 Some (dryRunDeclared, dryRunParser)) by (vm_compute; reflexivity).
  destruct (AddArgument_registers_named _ _ _ _ Hadd eq_refl) as (Hreg & _).
  split.
  - apply (Hreg "-n"). by left.
  - apply (Hreg "--dry-run"). right. by left.
Defined.



(** ** The option [OptionStrings] *)

Lemma classify_spec (ops : list string) (positional optional : bool) :
  classify ops positional optional =
    (positional || existsb (λ op, negb (HasPrefix_dash op)) ops,
     optional || existsb HasPrefix_dash ops).
Proof.
  revert positional optional. induction ops as [|op ops IH]; intros pos opt; simpl.
  - by rewrite !orb_false_r.
  - destruct (HasPrefix_dash op); rewrite IH; simpl; by rewrite ?orb_true_r, ?orb_false_r.
Qed.

Lemma existsb_false_Forall {A : Type} (f : A → bool) (l : list A) :
  existsb f l = false ↔ Forall (λ x, f x = false) l.
Proof.
  induction l as [|x l IH]; simpl.
  - split; [constructor|done].
  - rewrite orb_false_iff, IH, Forall_cons. done.
Qed.

Lemma Optional_allDashed (a : Argument) :
  OptionStrings a ≠ [] →
  allDashed (OptionStrings a) ∨ noneDashed (OptionStrings a) →
  (Optional a = true ↔ allDashed (OptionStrings a)) ∧
  (Optional a = false ↔ noneDashed (OptionStrings a)).
Proof.
  unfold Optional, allDashed, noneDashed. intros Hne Hcases.
  destruct (OptionStrings a) as [|op ops]; [done|].
  rewrite existsb_false_Forall.
  destruct Hcases as [Hall|Hnone].
  - apply Forall_cons in Hall as Hall'. destruct Hall' as [Hop _].
    simpl. rewrite Hop. simpl. split; [done|].
    split; [done|]. intros [Hop' _]%Forall_cons. congruence.
  - apply existsb_false_Forall in Hnone as Hex. rewrite Hex.
    split; [|done]. split; [done|]. intros [Hop _]%Forall_cons.
    apply Forall_cons in Hnone as [Hop' _]. congruence.
Qed.

(** X3: the option [OptionStrings] accepts a list exactly when it is not
    empty and either every string begins with "-" or none does; the
    argument it leaves carries the list, and [Optional] says named exactly
    when every string begins with "-". *)
Theorem OptionStrings_accepts_one_classification (ops : list string) (a : Argument) :
  ((∃ a', ArgumentOption.OptionStrings ops a = inr a') ↔
   ops ≠ [] ∧ (allDashed ops ∨ noneDashed ops)) ∧
  (∀ a', ArgumentOption.OptionStrings ops a = inr a' →
     a' = set_OptionStrings a ops ∧
     (Optional a' = true ↔ allDashed ops) ∧
     (Optional a' = false ↔ noneDashed ops)) ∧
  (ops = [] → ArgumentOption.OptionStrings ops a = inl NoOptionStrings).
Proof.
  assert (Hiff : (∃ a', ArgumentOption.OptionStrings ops a = inr a') ↔
                 ops ≠ [] ∧ (allDashed ops ∨ noneDashed ops)).
  { unfold ArgumentOption.OptionStrings, allDashed, noneDashed.
    destruct ops as [|first rest]; [naive_solver|].
    rewrite classify_spec. cbn [orb].
    destruct (existsb HasPrefix_dash (first :: rest)) eqn:Hd,
             (existsb (λ op, negb (HasPrefix_dash op)) (first :: rest)) eqn:Hn; cbn [Bool.eqb].
    - split; [by intros [? ?]|]. intros [_ [Hall|Hnone]].
      + apply existsb_exists in Hn as (op & Hin & Hop).
        rewrite Forall_forall in Hall. apply list_elem_of_In in Hin.
        rewrite (Hall op Hin) in Hop. done.
      + apply existsb_false_Forall in Hnone. congruence.
    - split; [|eauto]. intros _. split; [done|]. left.
      apply existsb_false_Forall in Hn. eapply Forall_impl; [exact Hn|].
      intros op Hop. by apply negb_false_iff.
    - split; [|eauto]. intros _. split; [done|]. right.
      by apply existsb_false_Forall.
    - simpl in Hd, Hn. destruct (HasPrefix_dash first); done. }
  split; [exact Hiff|]. split.
  - intros a' Ha'.
    destruct (proj1 Hiff (ex_intro _ a' Ha')) as [Hne Hcases].
    assert (a' = set_OptionStrings a ops) as ->.
    { unfold ArgumentOption.OptionStrings in Ha'. destruct ops; [done|].
      destruct (classify _ _ _) as [pos opt]. destruct (Bool.eqb opt pos); by simplify_eq. }
    split; [done|]. by apply (Optional_allDashed (set_OptionStrings a ops)).
  - by intros ->.
Qed.

(** ** Choices *)

Lemma newChoices_index_spec (cs : list Choice) (i : nat) (idx : gmap string nat)
    (key : string) (j : nat) :
  newChoices_index i cs idx !! key = Some j ↔
  (∃ n c, cs !! n = Some c ∧ Key c = key ∧ j = (i + n)%nat ∧
          ∀ n' c', (n < n')%nat → cs !! n' = Some c' → Key c' ≠ key) ∨
  (idx !! key = Some j ∧ ∀ c, c ∈ cs → Key c ≠ key).
Proof.
  revert i idx. induction cs as [|c cs IH]; intros i idx; simpl.
  - split.
    + intros H. right. split; [done|]. intros c Hc. by apply elem_of_nil in Hc.
    + intros [(n & c & Hn & _)|[H _]]; [by rewrite lookup_nil in Hn|done].
  - rewrite IH. split.
    + intros [(n & c' & Hn & Hk & -> & Hlast)|[Hidx Hnone]].
      * left. exists (S n), c'. split_and!; [done|done|lia|].
        intros [|n'] c'' Hlt Hn'; [lia|]. simpl in Hn'. apply (Hlast n' c''); [lia|done].
      * destruct (decide (Key c = key)) as [Heq|Hne].
        -- rewrite Heq, lookup_insert_eq in Hidx. injection Hidx as <-.
           left. exists 0%nat, c. split_and!; [done|done|lia|].
           intros [|n'] c' Hlt Hn'; [lia|]. simpl in Hn'.
           apply Hnone. by eapply list_elem_of_lookup_2.
        -- rewrite lookup_insert_ne in Hidx by done. right. split; [done|].
           intros c' [->|Hc']%elem_of_cons; [done|by apply Hnone].
    + intros [(n & c' & Hn & Hk & -> & Hlast)|[Hidx Hnone]].
      * destruct n as [|n]; simpl in Hn.
        -- injection Hn as <-. right. split.
           ++ rewrite Hk, lookup_insert_eq. f_equal. lia.
           ++ intros c' Hc' Hkey. apply list_elem_of_lookup_1 in Hc' as [n' Hn'].
              by apply (Hlast (S n') c'); [lia| |].
        -- left. exists n, c'. split_and!; [done|done|lia|].
           intros n' c'' Hlt Hn'. apply (Hlast (S n') c''); [lia|done].
      * right. split.
        -- rewrite lookup_insert_ne; [done|]. apply Hnone. by left.
        -- intros c' Hc'. apply Hnone. by right.
Qed.

Lemma last_with_key (cs : list Choice) (key : string) :
  (∃ c, c ∈ cs ∧ Key c = key) →
  ∃ n c, cs !! n = Some c ∧ Key c = key ∧
         ∀ n' c', (n < n')%nat → cs !! n' = Some c' → Key c' ≠ key.
Proof.
  induction cs as [|c1 cs IH]; intros (c & Hc & Hk); [by apply elem_of_nil in Hc|].
  destruct (decide (Exists (λ c', Key c' = key) cs)) as [Hex|Hno].
  - apply Exists_exists in Hex as (c' & Hc' & Hk').
    destruct IH as (n & c0 & Hn & Hk0 & Hlast); [eauto|].
    exists (S n), c0. split_and!; [done|done|].
    intros [|n'] c'' Hlt Hn'; [lia|]. simpl in Hn'. apply (Hlast n' c''); [lia|done].
  - rewrite Exists_exists in Hno.
    apply elem_of_cons in Hc as [->|Hc]; [|exfalso; eauto].
    exists 0%nat, c1. split_and!; [done|done|].
    intros [|n'] c'' Hlt Hn'; [lia|]. simpl in Hn'. intros Hk''.
    apply Hno. exists c''. split; [by eapply list_elem_of_lookup_2|done].
Qed.

Lemma Load_unknown_key (cs : list Choice) (key : string) :
  (∀ c, c ∈ cs → Key c ≠ key) → Load (NewChoices cs) key = None.
Proof.
  intros Hnone. unfold Load, NewChoices, newChoices. simpl.
  destruct (newChoices_index 0 cs ∅ !! key) as [j|] eqn:Hj; [|done].
  apply newChoices_index_spec in Hj as [(n & c & Hn & Hk & _)|[Hempty _]].
  - exfalso. apply (Hnone c); [by eapply list_elem_of_lookup_2|done].
  - by rewrite lookup_empty in Hempty.
Qed.

(** X4: in a collection built by [NewChoices], [Load] finds a key exactly
    when some choice has it, and yields the value of the last choice with
    that key; the index it goes through never points outside the items. *)
Theorem Load_yields_last_choice (cs : list Choice) (key : string) :
  (∀ v, Load (NewChoices cs) key = Some v ↔
        ∃ n c, cs !! n = Some c ∧ Key c = key ∧ Value c = v ∧
               ∀ n' c', (n < n')%nat → cs !! n' = Some c' → Key c' ≠ key) ∧
  (Load (NewChoices cs) key = None ↔ ∀ c, c ∈ cs → Key c ≠ key) ∧
  (∀ j, index (NewChoices cs) !! key = Some j →
        ∃ c, At (NewChoices cs) (Z.of_nat j) = Some c ∧ Key c = key).
Proof.
  assert (Hidx : ∀ j, index (NewChoices cs) !! key = Some j ↔
            ∃ c, cs !! j = Some c ∧ Key c = key ∧
                 ∀ n' c', (j < n')%nat → cs !! n' = Some c' → Key c' ≠ key).
  { intros j. unfold NewChoices, newChoices. simpl. rewrite newChoices_index_spec.
    split.
    - intros [(n & c & Hn & Hk & -> & Hlast)|[Hempty _]]; [eauto|].
      by rewrite lookup_empty in Hempty.
    - intros (c & Hj & Hk & Hlast). left. exists j, c. eauto. }
  assert (Hsome : ∀ v, Load (NewChoices cs) key = Some v ↔
        ∃ n c, cs !! n = Some c ∧ Key c = key ∧ Value c = v ∧
               ∀ n' c', (n < n')%nat → cs !! n' = Some c' → Key c' ≠ key).
  { intros v. unfold Load. split.
    - destruct (index (NewChoices cs) !! key) as [j|] eqn:Hj; [|done].
      destruct (proj1 (Hidx j) eq_refl) as (c & Hc & Hk & Hlast).
      simpl. rewrite Hc. simpl. intros [= <-]. eauto 10.
    - intros (n & c & Hn & Hk & Hv & Hlast).
      assert (index (NewChoices cs) !! key = Some n) as -> by (apply Hidx; eauto).
      simpl. rewrite Hn. simpl. by rewrite Hv. }
  split; [exact Hsome|]. split.
  - split.
    + intros Hnone c Hc Hk.
      destruct (last_with_key cs key) as (n & c0 & Hn & Hk0 & Hlast); [eauto|].
      assert (Load (NewChoices cs) key = Some (Value c0)) as Hload by (apply Hsome; eauto 10).
      congruence.
    + intros Hnone. destruct (Load (NewChoices cs) key) as [v|] eqn:Hload; [|done].
      destruct (proj1 (Hsome v) eq_refl) as (n & c & Hn & Hk & _). exfalso.
      apply (Hnone c); [by eapply list_elem_of_lookup_2|done].
  - intros j Hj. apply Hidx in Hj as (c & Hc & Hk & _). exists c. split; [|done].
    unfold At, Len, NewChoices, newChoices. simpl.
    apply lookup_lt_Some in Hc as Hlt.
    destruct (Z.ltb_spec (Z.of_nat j) 0); [lia|].
    destruct (Z.leb_spec (Z.of_nat (length cs)) (Z.of_nat j)); [lia|]. simpl.
    by rewrite Nat2Z.id.
Qed.

(** ** The option string of the usage line *)

Lemma shortestFrom_spec (rest : list string) (short : string) :
  (shortestFrom short rest = short ∧
   ∀ o, o ∈ rest → (String.length short ≤ String.length o)%nat) ∨
  (∃ pre post, rest = pre ++ shortestFrom short rest :: post ∧
     (String.length (shortestFrom short rest) < String.length short)%nat ∧
     (∀ o, o ∈ pre → (String.length (shortestFrom short rest) < String.length o)%nat) ∧
     (∀ o, o ∈ post → (String.length (shortestFrom short rest) ≤ String.length o)%nat)).
Proof.
  revert short. induction rest as [|s rest IH]; intros short; simpl.
  - left. split; [done|]. intros o Ho. by apply elem_of_nil in Ho.
  - destruct (String.length s <? String.length short)%nat eqn:Hlt.
    + apply Nat.ltb_lt in Hlt.
      destruct (IH s) as [[Heq Hall]|(pre & post & Hsplit & Hless & Hpre & Hpost)].
      * right. exists [], rest. rewrite Heq. repeat split; try done.
        intros o Ho. by apply elem_of_nil in Ho.
      * right. exists (s :: pre), post. split; [by rewrite Hsplit at 1|].
        split; [lia|]. split; [|done].
        intros o [->|Ho]%elem_of_cons; [done|by apply Hpre].
    + apply Nat.ltb_ge in Hlt.
      destruct (IH short) as [[Heq Hall]|(pre & post & Hsplit & Hless & Hpre & Hpost)].
      * left. split; [done|]. intros o [->|Ho]%elem_of_cons; [done|by apply Hall].
      * right. exists (s :: pre), post. split; [by rewrite Hsplit at 1|].
        split; [done|]. split; [|done].
        intros o [->|Ho]%elem_of_cons; [lia|by apply Hpre].
Qed.

(** X5: [getShortestArgOptionString] yields one of the option strings, no
    longer than any other, and the first of that length; without option
    strings it yields the empty string. *)
Theorem getShortestArgOptionString_first_shortest (a : Argument) :
  (OptionStrings a = [] → getShortestArgOptionString a = "") ∧
  (OptionStrings a ≠ [] →
   ∃ pre post,
     OptionStrings a = pre ++ getShortestArgOptionString a :: post ∧
     (∀ o, o ∈ pre →
        (String.length (getShortestArgOptionString a) < String.length o)%nat) ∧
     (∀ o, o ∈ post →
        (String.length (getShortestArgOptionString a) ≤ String.length o)%nat)).
Proof.
  unfold getShortestArgOptionString. split; [by intros ->|]. intros Hne.
  destruct (OptionStrings a) as [|s rest]; [done|].
  assert (Hsame : match rest with [] => s | _ => shortestFrom s rest end = shortestFrom s rest)
    by by destruct rest.
  rewrite Hsame.
  destruct (shortestFrom_spec rest s) as [[Heq Hall]|(pre & post & Hsplit & Hless & Hpre & Hpost)].
  - exists [], rest. rewrite Heq. repeat split; try done.
    intros o Ho. by apply elem_of_nil in Ho.
  - exists (s :: pre), post. split; [simpl; by rewrite Hsplit at 1|]. split; [|done].
    intros o [->|Ho]%elem_of_cons; [done|by apply Hpre].
Qed.

(** ** What [getArgs] takes *)

(** X6: for every arity, the values [getArgs] returns are the tokens the
    cursor has passed: a prefix of the remaining tokens, none left out,
    and the tokens after them are what remains; a failing [getArgs] moves
    nothing. *)
Theorem getArgs_returns_passed_tokens (p : ArgumentParser) (a : Argument)
    (s s' : parsingState) (r : res (list string)) :
  getArgs p a s = (r, s') →
  match r with
  | Ret vals =>
      remainder s = vals ++ remainder s' ∧
      argi s' = (argi s + length vals)%nat ∧
      (0 ≤ Nargs a → Z.of_nat (length vals) = Nargs a) ∧
      (Nargs a = ZeroOrOne → (length vals ≤ 1)%nat)
  | _ => s' = s
  end.
Proof.
  unfold getArgs. intros H.
  destruct (Z.ltb_spec (Z.of_nat (length (remainder s))) (Nargs a)) as [Hlt|Hge];
    [by simplify_eq|].
  destruct (Z.eqb_spec (Nargs a) 0) as [H0|H0].
  { simplify_eq. simpl. split_and!; [done|lia|done|]. intros. lia. }
  destruct (Z.eqb_spec (Nargs a) ZeroOrOne) as [H1|H1].
  { rewrite H1. destruct (remainder s) as [|tok rest] eqn:Hrem.
    - simplify_eq. rewrite Hrem. simpl. split_and!; [done|lia|done|]. intros. lia.
    - destruct (isNamed p tok).
      + simplify_eq. rewrite Hrem. simpl. split_and!; [done|lia|done|]. intros. lia.
      + simplify_eq. rewrite remainder_with_argi, Hrem. simpl.
        split_and!; [done|done|done|]. intros. lia. }
  destruct ((Nargs a =? ZeroOrMore) && bool_decide (length (remainder s) = 0%nat)) eqn:Hzm.
  { apply andb_true_iff in Hzm as [Hz%Z.eqb_eq Hl%bool_decide_eq_true].
    simplify_eq. simpl. rewrite Hz. unfold ZeroOrMore, ZeroOrOne.
    split_and!; [done|lia|lia|done]. }
  destruct ((Nargs a =? ZeroOrMore) || (Nargs a =? OneOrMore)) eqn:Hvar.
  { case_bool_decide as Hl; [by simplify_eq|]. simplify_eq.
    rewrite remainder_with_argi. simpl. rewrite length_take_scanValues.
    apply orb_true_iff in Hvar as [Hz%Z.eqb_eq|Hz%Z.eqb_eq]; rewrite Hz;
      unfold ZeroOrMore, OneOrMore, ZeroOrOne;
      (split_and!; [by rewrite take_drop|done|lia|done]). }
  destruct (Z.ltb_spec (Nargs a) 0) as [Hneg|Hpos]; [by simplify_eq|].
  simplify_eq. rewrite remainder_with_argi. simpl.
  rewrite length_take. split_and!; [by rewrite take_drop|lia|lia|].
  intros Hz. rewrite Hz in Hpos. unfold ZeroOrOne in Hpos. lia.
Qed.

Lemma getArgs_returns_passed_tokens_witness :
  remainder {| args := ["--flag"; "a"; "b"; "--other"]; argi := 1; ns := ∅; posi := 0 |} =
    ["a"; "b"] ++
    remainder {| args := ["--flag"; "a"; "b"; "--other"]; argi := 3; ns := ∅; posi := 0 |}.
Proof.
  exact (proj1 (getArgs_returns_passed_tokens flagParser flagArg
    {| args := ["--flag"; "a"; "b"; "--other"]; argi := 1; ns := ∅; posi := 0 |}
    {| args := ["--flag"; "a"; "b"; "--other"]; argi := 3; ns := ∅; posi := 0 |}
    (Ret ["a"; "b"]) eq_refl)).
Defined.

Lemma getArgs_exactly (p : ArgumentParser) (a : Argument) (s : parsingState) :
  1 ≤ Nargs a → Nargs a ≤ Z.of_nat (length (remainder s)) →
  getArgs p a s =
    (Ret (take (Z.to_nat (Nargs a)) (remainder s)),
     with_argi s (argi s + Z.to_nat (Nargs a))).
Proof.
  intros Hn Hlen. unfold getArgs.
  destruct (Z.ltb_spec (Z.of_nat (length (remainder s))) (Nargs a)); [lia|].
  destruct (Z.eqb_spec (Nargs a) 0); [lia|].
  destruct (Z.eqb_spec (Nargs a) ZeroOrOne) as [Hz|]; [unfold ZeroOrOne in Hz; lia|].
  destruct (Z.eqb_spec (Nargs a) ZeroOrMore) as [Hz|]; [unfold ZeroOrMore in Hz; lia|].
  destruct (Z.eqb_spec (Nargs a) OneOrMore) as [Hz|]; [unfold OneOrMore in Hz; lia|].
  simpl. destruct (Z.ltb_spec (Nargs a) 0); [lia|done].
Qed.

(** X7: an argument of a fixed arity [n >= 1] takes the next [n] tokens
    as they come, option strings of named arguments included; with fewer
    than [n] tokens left it fails with "not enough values" and takes
    none. *)
Theorem getArgs_fixed_arity_takes_next_tokens (p : ArgumentParser) (a : Argument)
    (s : parsingState) :
  1 ≤ Nargs a →
  getArgs p a s =
    if Z.of_nat (length (remainder s)) <? Nargs a
    then (Fail (NotEnoughValues (Dest a)), s)
    else (Ret (take (Z.to_nat (Nargs a)) (remainder s)),
          with_argi s (argi s + Z.to_nat (Nargs a))).
Proof.
  intros Hn. unfold getArgs.
  destruct (Z.ltb_spec (Z.of_nat (length (remainder s))) (Nargs a)); [done|].
  destruct (Z.eqb_spec (Nargs a) 0); [lia|].
  destruct (Z.eqb_spec (Nargs a) ZeroOrOne) as [Hz|]; [unfold ZeroOrOne in Hz; lia|].
  destruct (Z.eqb_spec (Nargs a) ZeroOrMore) as [Hz|]; [unfold ZeroOrMore in Hz; lia|].
  destruct (Z.eqb_spec (Nargs a) OneOrMore) as [Hz|]; [unfold OneOrMore in Hz; lia|].
  simpl. destruct (Z.ltb_spec (Nargs a) 0); [lia|done].
Qed.

Lemma getArgs_fixed_arity_takes_next_tokens_witness :
  getArgs countParser countArg
    {| args := ["--count"; "-c"]; argi := 1; ns := ∅; posi := 0 |} =
  (Ret ["-c"], {| args := ["--count"; "-c"]; argi := 2; ns := ∅; posi := 0 |}).
Proof.
  exact (getArgs_fixed_arity_takes_next_tokens countParser countArg
    {| args := ["--count"; "-c"]; argi := 1; ns := ∅; posi := 0 |} ltac:(done)).
Defined.

(** X8: [getArgs] and [handle] panic exactly for an arity that the
    option [Nargs] refuses ([isValidNarg] false): the validity test is the
    condition under which every slice expression of the engine is in
    range, and an argument whose arity was set by the option [Nargs] is
    handled without a panic. *)
Theorem engine_panics_iff_invalid_Nargs (T : ActionTable) (p : ArgumentParser)
    (a : Argument) (s : parsingState) :
  (panicked (getArgs p a s).1 = true ↔ isValidNarg (Nargs a) = false) ∧
  (panicked (handle T p a s).1 = true ↔ isValidNarg (Nargs a) = false) ∧
  (∀ v a', ArgumentOption.Nargs v a = inr a' →
           Nargs a' = v ∧ panicked (handle T p a' s).1 = false) ∧
  (∀ v, ArgumentOption.Nargs v a = inl (InvalidNargs v) ↔ v < ZeroOrOne).
Proof.
  assert (Hget : panicked (getArgs p a s).1 = true ↔ isValidNarg (Nargs a) = false).
  { split.
    - intros Hp. destruct (isValidNarg (Nargs a)) eqn:Hv; [|done].
      by rewrite (getArgs_no_panic p a s Hv) in Hp.
    - unfold isValidNarg, ZeroOrOne. intros Hv%Z.leb_gt. unfold getArgs.
      destruct (Z.ltb_spec (Z.of_nat (length (remainder s))) (Nargs a)); [lia|].
      destruct (Z.eqb_spec (Nargs a) 0); [lia|].
      destruct (Z.eqb_spec (Nargs a) ZeroOrOne) as [Hz|]; [unfold ZeroOrOne in Hz; lia|].
      destruct (Z.eqb_spec (Nargs a) ZeroOrMore) as [Hz|]; [unfold ZeroOrMore in Hz; lia|].
      destruct (Z.eqb_spec (Nargs a) OneOrMore) as [Hz|]; [unfold OneOrMore in Hz; lia|].
      simpl. destruct (Z.ltb_spec (Nargs a) 0); [done|lia]. }
  split; [exact Hget|]. split; [split|split].
  - intros Hp. destruct (isValidNarg (Nargs a)) eqn:Hv; [|done].
    by rewrite (handle_no_panic T p a s Hv) in Hp.
  - intros Hv. apply Hget in Hv. unfold handle.
    by destruct (getArgs p a s) as [[vals| |] s0].
  - intros v a' Hopt. unfold ArgumentOption.Nargs in Hopt.
    destruct (isValidNarg v) eqn:Hv; [|done]. injection Hopt as <-.
    split; [done|]. by apply handle_no_panic.
  - intros v. unfold ArgumentOption.Nargs, isValidNarg.
    destruct (Z.leb_spec ZeroOrOne v); split; try done; lia.
Qed.

(** ** What a step writes *)

Lemma callAction_effect (T : ActionTable) (a : Argument) (m m' : gmap string value)
    (vs : list value) (r : res unit) :
  callAction T a m vs = (r, m') →
  (succeeded r = false ∧ m' = m) ∨ (succeeded r = true ∧ ∃ v, m' = <[Dest a := v]> m).
Proof.
  unfold callAction, FuncAction.Append, FuncAction.Store, FuncAction.StoreTrue,
    FuncAction.StoreFalse, NamedAction.Append, NamedAction.Store,
    NamedAction.StoreTrue, NamedAction.StoreFalse,
    Namespace.Append, Namespace.Set_, Namespace.Get.
  intros H. repeat case_match; simplify_eq; first [by left | right; eauto].
Qed.

Lemma runAction_effect (T : ActionTable) (a : Argument) (s s' : parsingState)
    (vs : list value) (r : res unit) :
  runAction T a s vs = (r, s') →
  (succeeded r = false ∧ ns s' = ns s) ∨
  (succeeded r = true ∧ ∃ v, ns s' = <[Dest a := v]> (ns s)).
Proof.
  unfold runAction. destruct (callAction T a (ns s) vs) as [r0 m] eqn:Hcall.
  intros H. simplify_eq. simpl. by eapply callAction_effect.
Qed.

Lemma handle_effect (T : ActionTable) (p : ArgumentParser) (a : Argument)
    (s s' : parsingState) (r : res unit) :
  handle T p a s = (r, s') →
  (succeeded r = false ∧ ns s' = ns s) ∨
  (succeeded r = true ∧ ∃ v, ns s' = <[Dest a := v]> (ns s)).
Proof.
  intros H. unfold handle in H. pose proof (getArgs_ns p a s) as Hns.
  destruct (getArgs p a s) as [[vals| |] s0]; simpl in Hns;
    [|simplify_eq; by left..].
  rewrite <- Hns.
  assert (Hrun : ∀ vs, runAction T a s0 vs = (r, s') →
            (succeeded r = false ∧ ns s' = ns s0) ∨
            (succeeded r = true ∧ ∃ v, ns s' = <[Dest a := v]> (ns s0)))
    by (intros vs; apply runAction_effect).
  unfold handleOne, handleAll in H.
  repeat case_match; simplify_eq; eauto.
Qed.

(** X9: [handle] for an argument either fails and leaves the mapping as
    it was, or succeeds and has written under the key of that argument and
    nowhere else. *)
Theorem handle_writes_own_key_or_nothing (T : ActionTable) (p : ArgumentParser)
    (a : Argument) (s s' : parsingState) (r : res unit) :
  handle T p a s = (r, s') →
  (succeeded r = false ∧ ns s' = ns s) ∨
  (succeeded r = true ∧ is_Some (ns s' !! Dest a) ∧
   ∀ k, k ≠ Dest a → ns s' !! k = ns s !! k).
Proof.
  intros H. destruct (handle_effect T p a s s' r H) as [?|(Hok & v & Hv)]; [by left|].
  right. split; [done|].
  rewrite Hv. split; [by rewrite lookup_insert_eq|].
  intros k Hk. by rewrite lookup_insert_ne.
Qed.

Lemma handle_writes_own_key_or_nothing_witness :
  ns (handle funcActions verboseParser verboseArg (init ["--verbose"])).2 = ∅.
Proof.
  destruct (handle funcActions verboseParser verboseArg (init ["--verbose"]))
    as [r s'] eqn:Hh.
  destruct (handle_writes_own_key_or_nothing _ _ _ _ _ _ Hh) as [[_ Hsame]|[Hok _]].
  - exact Hsame.
  - vm_compute in Hh. injection Hh as <- _. discriminate Hok.
Defined.

Lemma getOptionals_range_elem (m : gmap string Argument) (order : list string)
    (acc : list Argument) (already : list nat) (a : Argument) :
  a ∈ getOptionals_range m order acc already → a ∈ acc ∨ ∃ k, m !! k = Some a.
Proof.
  revert acc already. induction order as [|k order IH]; intros acc already; simpl.
  - by left.
  - destruct (m !! k) as [a0|] eqn:Hk; [|apply IH].
    case_bool_decide; [apply IH|].
    intros [Ha|?]%IH; [|by right].
    apply elem_of_app in Ha as [?|Ha]; [by left|].
    apply list_elem_of_singleton in Ha as ->. eauto.
Qed.

Lemma allArgs_declared (p : ArgumentParser) (order : list string) (a : Argument) :
  a ∈ allArgs p order → declaredKey p (Dest a).
Proof.
  unfold allArgs, getOptionals. intros [Ha|Ha]%elem_of_app.
  - apply getOptionals_range_elem in Ha as [Ha|[k Hk]]; [by apply elem_of_nil in Ha|].
    left. eauto.
  - right. eauto.
Qed.

Lemma resolveArg_effect (T : ActionTable) (a : Argument) (m m' : gmap string value)
    (r : res unit) :
  resolveArg T a m = (r, m') →
  (m' = m ∧ (succeeded r = true → is_Some (m !! Dest a) ∨
                                   Required a = false ∧ Default a = VNil)) ∨
  (succeeded r = true ∧ ∃ v, m' = <[Dest a := v]> m).
Proof.
  unfold resolveArg, Namespace.Get. intros H.
  destruct (m !! Dest a) as [v|] eqn:Hm; [simplify_eq; left; eauto|].
  destruct (Required a); [simplify_eq; by left|].
  destruct (Default a) eqn:Hd; [simplify_eq; left; eauto|..];
    (apply callAction_effect in H as [[Hf ->]|?]; [left|by right]);
    (split; [done|]; intros ?; congruence).
Qed.

Lemma parseLoop_keys (T : ActionTable) (p : ArgumentParser) (fuel : nat)
    (s s' : parsingState) (r : res unit) :
  parseLoop T p fuel s = Some (r, s') →
  (∀ k, is_Some (ns s !! k) → declaredKey p k) →
  ∀ k, is_Some (ns s' !! k) → declaredKey p k.
Proof.
  revert s. induction fuel as [|fuel IH]; intros s H Hinv; simpl in H.
  - destruct (args s !! argi s); by simplify_eq.
  - destruct (args s !! argi s) as [tok|]; [|by simplify_eq].
    destruct (parseToken T p s tok) as [r1 s1] eqn:Hstep.
    assert (Hinv1 : ∀ k, is_Some (ns s1 !! k) → declaredKey p k).
    { unfold parseToken in Hstep.
      assert (Hh : ∀ a s0, declaredKey p (Dest a) → ns s0 = ns s →
                handle T p a s0 = (r1, s1) → ∀ k, is_Some (ns s1 !! k) → declaredKey p k).
      { intros a s0 Ha Hs0 Hh k Hk.
        apply handle_effect in Hh as [[_ Hsame]|(_ & v & Hv)].
        - apply Hinv. by rewrite <- Hs0, <- Hsame.
        - destruct (decide (k = Dest a)) as [->|Hne]; [done|].
          apply Hinv. rewrite Hv, lookup_insert_ne in Hk by done. by rewrite <- Hs0. }
      destruct (Optionals p !! tok) as [a|] eqn:Ha.
      - apply (Hh a (with_argi s (argi s + 1))); [left; eauto|done|exact Hstep].
      - destruct (Positionals p !! posi s) as [a|] eqn:Hp; [|by simplify_eq].
        apply (Hh a (with_posi s (posi s + 1))); [|done|exact Hstep].
        right. exists a. split; [|done]. by eapply list_elem_of_lookup_2. }
    destruct r1 as [[]| |]; [by eapply IH|by simplify_eq..].
Qed.

Lemma resolveArgs_keys (T : ActionTable) (p : ArgumentParser) (l : list Argument)
    (m m' : gmap string value) (r : res unit) :
  resolveArgs T l m = (r, m') →
  (∀ a, a ∈ l → declaredKey p (Dest a)) →
  (∀ k, is_Some (m !! k) → declaredKey p k) →
  ∀ k, is_Some (m' !! k) → declaredKey p k.
Proof.
  revert m. induction l as [|a l IH]; intros m H Hl Hinv; simpl in H; [by simplify_eq|].
  destruct (resolveArg T a m) as [r1 m1] eqn:Hstep.
  assert (Hinv1 : ∀ k, is_Some (m1 !! k) → declaredKey p k).
  { apply resolveArg_effect in Hstep as [[-> _]|(_ & v & ->)]; [done|].
    intros k Hk. destruct (decide (k = Dest a)) as [->|Hne]; [apply Hl; by left|].
    apply Hinv. by rewrite lookup_insert_ne in Hk. }
  destruct r1 as [[]| |]; [|by simplify_eq..].
  eapply IH; [done| |done]. intros b Hb. apply Hl. by right.
Qed.

Lemma ParseArgs_Ret_inv (T : ActionTable) (p : ArgumentParser) (order tokens : list string)
    (m : gmap string value) :
  ParseArgs T p order tokens = Some (Ret m) →
  ∃ s1, parseLoop T p (parseFuel p tokens) (init tokens) = Some (Ret tt, s1) ∧
        resolveArgs T (allArgs p order) (ns s1) = (Ret tt, m).
Proof.
  unfold ParseArgs, parse, parseFrom. intros H.
  destruct (parseLoop T p (parseFuel p tokens) (init tokens)) as [[[[]| |] s1]|];
    [|done..].
  destruct (resolveArgs T (allArgs p order) (ns s1)) as [[[]| |] m1] eqn:Hres;
    simplify_eq. eauto.
Qed.

(** X10: every key of the mapping a parse returns is the key ([Dest]) of
    an argument of the parser. *)
Theorem ParseArgs_keys_are_declared (T : ActionTable) (p : ArgumentParser)
    (order tokens : list string) (m : gmap string value) :
  ParseArgs T p order tokens = Some (Ret m) →
  ∀ k, is_Some (m !! k) → declaredKey p k.
Proof.
  intros (s1 & Hloop & Hres)%ParseArgs_Ret_inv.
  eapply resolveArgs_keys; [exact Hres|apply allArgs_declared|].
  eapply parseLoop_keys; [exact Hloop|].
  intros k Hk. simpl in Hk. rewrite lookup_empty in Hk. by destruct Hk.
Qed.

Lemma ParseArgs_keys_are_declared_witness :
  declaredKey flagParser "flag".
Proof.
  apply (ParseArgs_keys_are_declared funcActions flagParser ["--flag"; "--other"]
           ["--flag"; "a"; "b"; "--other"]
           (<["other" := VSlice [VBool true]]>
              (<["flag" := VSlice [VString "a"; VString "b"]]> ∅))).
  - vm_compute. reflexivity.
  - rewrite lookup_insert_ne by done. rewrite lookup_insert_eq. eauto.
Defined.

Lemma resolveArgs_present (T : ActionTable) (l : list Argument) (m m' : gmap string value) :
  resolveArgs T l m = (Ret tt, m') →
  (∀ k, is_Some (m !! k) → is_Some (m' !! k)) ∧
  ∀ a, a ∈ l → Required a = true ∨ Default a ≠ VNil → is_Some (m' !! Dest a).
Proof.
  revert m. induction l as [|a l IH]; intros m H; simpl in H.
  - simplify_eq. split; [done|]. intros a Ha. by apply elem_of_nil in Ha.
  - destruct (resolveArg T a m) as [r1 m1] eqn:Hstep.
    destruct r1 as [[]| |]; [|by simplify_eq..].
    destruct (IH m1 H) as [Hmono Hl].
    assert (Hstep' := Hstep). unfold resolveArg, Namespace.Get in Hstep'.
    apply resolveArg_effect in Hstep as [[-> Hwhy]|(_ & v & ->)].
    + split; [done|]. intros b [->|Hb]%elem_of_cons Hneed; [|by apply Hl].
      apply Hmono. destruct (Hwhy eq_refl) as [?|[Hr Hd]]; [done|].
      destruct Hneed; congruence.
    + split.
      * intros k Hk. apply Hmono.
        destruct (decide (k = Dest a)) as [->|Hne];
          [by rewrite lookup_insert_eq|by rewrite lookup_insert_ne].
      * intros b [->|Hb]%elem_of_cons Hneed; [|by apply Hl].
        apply Hmono. by rewrite lookup_insert_eq.
Qed.

(** X11: in the mapping a parse returns, the key of every argument that
    is required or has a non-nil default is present. *)
Theorem ParseArgs_required_and_default_keys_present (T : ActionTable)
    (p : ArgumentParser) (order tokens : list string) (m : gmap string value) :
  ParseArgs T p order tokens = Some (Ret m) →
  ∀ a, a ∈ allArgs p order → Required a = true ∨ Default a ≠ VNil →
       is_Some (m !! Dest a).
Proof.
  intros (s1 & _ & Hres)%ParseArgs_Ret_inv.
  by apply (resolveArgs_present T _ _ _ Hres).
Qed.

Lemma ParseArgs_required_and_default_keys_present_witness :
  is_Some ((<["logfile" := VString "app.log"]> ∅ : gmap string value) !! Dest logFileRequired).
Proof.
  apply (ParseArgs_required_and_default_keys_present funcActions requiredSharedParser
           ["--logfile"; "--log-file"] [] (<["logfile" := VString "app.log"]> ∅)).
  - vm_compute. reflexivity.
  - vm_compute. set_solver.
  - by left.
Defined.

(** ** Conversion *)

Lemma createValues_Ret (a : Argument) (l : list string) (vs : list value) :
  createValues a l = Ret vs ↔ Forall2 (λ tok v, createValue a tok = Ret v) l vs.
Proof.
  revert vs. induction l as [|tok l IH]; intros vs; simpl.
  - split; [intros [= <-]; constructor|by intros ->%Forall2_nil_inv_l].
  - split.
    + destruct (createValue a tok) as [v| |] eqn:Hv; [|done..].
      destruct (createValues a l) as [vs0| |] eqn:Hvs; [|done..].
      intros [= <-]. constructor; [done|]. by apply IH.
    + intros (v & vs0 & Hv & Hvs & ->)%Forall2_cons_inv_l.
      rewrite Hv. apply IH in Hvs. by rewrite Hvs.
Qed.

Lemma createValues_strings (a : Argument) (l : list string) :
  Choices a = None → Type_ a = Conv.String → createValues a l = Ret (VString <$> l).
Proof.
  intros Hc Ht. apply createValues_Ret.
  induction l as [|tok l IH]; [constructor|].
  rewrite fmap_cons. constructor; [|done].
  unfold createValue. by rewrite Hc, Ht.
Qed.

(** X12: the conversion of the tokens of an argument is all or nothing and
    keeps their order: it returns the list of the converted tokens when
    every one converts, and otherwise the error of the first token that
    does not, wrapped as "... failed". With the default converter and no
    choices every token is kept as the string it is. *)
Theorem createValues_all_or_first_error (a : Argument) (l : list string) :
  (∀ vs, createValues a l = Ret vs ↔
         Forall2 (λ tok v, createValue a tok = Ret v) l vs) ∧
  (∀ pre tok post e,
     l = pre ++ tok :: post →
     Forall (λ t, succeeded (createValue a t) = true) pre →
     createValue a tok = Fail e →
     createValues a l = Fail (TypeFailed e)) ∧
  (Choices a = None → Type_ a = Conv.String → createValues a l = Ret (VString <$> l)).
Proof.
  split; [intros vs; apply createValues_Ret|]. split.
  - intros pre tok post e -> Hpre Htok.
    induction Hpre as [|t pre Ht _ IH]; simpl.
    + by rewrite Htok.
    + destruct (createValue a t); [|done..]. by rewrite IH.
  - apply createValues_strings.
Qed.

(** X13: for an argument with a choice set, a token that is the key of no
    choice is refused with "invalid choice", whatever the type converter
    of the argument would make of it; for an argument of arity one
    [handle] then fails with that error wrapped, having passed the token
    and written nothing. *)
Theorem choices_refuse_unknown_token (T : ActionTable) (p : ArgumentParser)
    (a : Argument) (cs : list Choice) (s : parsingState) (tok : string)
    (rest : list string) :
  Choices a = Some (NewChoices cs) →
  (∀ c, c ∈ cs → Key c ≠ tok) →
  createValue a tok = Fail (InvalidChoice tok (Dest a)) ∧
  (Nargs a = 1 → remainder s = tok :: rest →
   handle T p a s =
     (Fail (TypeFailed (InvalidChoice tok (Dest a))), with_argi s (argi s + 1))).
Proof.
  intros Hc Hnone.
  assert (Hv : createValue a tok = Fail (InvalidChoice tok (Dest a))).
  { unfold createValue. by rewrite Hc, Load_unknown_key. }
  split; [done|]. intros Hn Hrem.
  unfold handle. rewrite getArgs_exactly by (rewrite ?Hrem, Hn; simpl; lia).
  rewrite Hn, Hrem. simpl. unfold handleAll. simpl. by rewrite Hv.
Qed.

Lemma choices_refuse_unknown_token_witness :
  handle funcActions (oneNamed "--level" levelArg) levelArg
    {| args := ["--level"; "medium"]; argi := 1; ns := ∅; posi := 0 |} =
  (Fail (TypeFailed (InvalidChoice "medium" "level")),
   {| args := ["--level"; "medium"]; argi := 2; ns := ∅; posi := 0 |}).
Proof.
  refine (proj2 (choices_refuse_unknown_token funcActions (oneNamed "--level" levelArg)
    levelArg [ {| Key := "low"; Value := VInt 0 |}; {| Key := "high"; Value := VInt 1 |} ]
    {| args := ["--level"; "medium"]; argi := 1; ns := ∅; posi := 0 |}
    "medium" [] eq_refl _) eq_refl eq_refl).
  intros c Hc. apply elem_of_cons in Hc as [->|Hc]; [discriminate|].
  apply elem_of_cons in Hc as [->|Hc]; [discriminate|]. by apply elem_of_nil in Hc.
Defined.

(** ** The list of the named arguments *)

(** X14: when addresses identify arguments, [getOptionals] lists every
    argument of [Optionals] exactly once, under however many option
    strings it is registered and in whatever order the map is iterated. *)
Theorem getOptionals_each_argument_once (p : ArgumentParser) (order : list string) :
  (∀ k1 k2 a1 a2, Optionals p !! k1 = Some a1 → Optionals p !! k2 = Some a2 →
     addr a1 = addr a2 → a1 = a2) →
  iteration_order p order →
  NoDup (getOptionals p order) ∧
  ∀ a, a ∈ getOptionals p order ↔ ∃ k, Optionals p !! k = Some a.
Proof.
  intros Hcoh [_ Horder].
  destruct (getOptionals_range_spec (Optionals p) order [] [] Hcoh) as [Hnd Hel].
  - intros a Ha. by apply elem_of_nil in Ha.
  - intros n. split; [intros Hn; by apply elem_of_nil in Hn|].
    intros (a & Ha & _). by apply elem_of_nil in Ha.
  - constructor.
  - split; [done|]. intros a. unfold getOptionals. rewrite Hel. split.
    + intros [Ha|(k & _ & Hk)]; [by apply elem_of_nil in Ha|eauto].
    + intros (k & Hk). right. exists k. split; [|done]. apply Horder. by rewrite Hk.
Qed.

Lemma getOptionals_each_argument_once_witness :
  NoDup (getOptionals dryRunParser ["--dry-run"; "-n"]) ∧
  ∀ a, a ∈ getOptionals dryRunParser ["--dry-run"; "-n"] ↔
       ∃ k, Optionals dryRunParser !! k = Some a.
Proof.
  apply getOptionals_each_argument_once.
  - intros k1 k2 a1 a2 H1 H2 _. simpl in H1, H2.
    apply two_named_range in H1 as [-> | ->], H2 as [-> | ->]; reflexivity.
  - apply (iteration_order_two "--dry-run" "-n"). discriminate.
Defined.

(** ** Reading the namespace *)

Lemma stringsFrom_fmap (i : nat) (ss : list string) :
  stringsFrom i (VString <$> ss) = Got ss.
Proof.
  revert i. induction ss as [|x ss IH]; intros i; [done|].
  rewrite fmap_cons. simpl. by rewrite IH.
Qed.

Lemma stringsFrom_Got (i : nat) (vs : list value) (ss : list string) :
  stringsFrom i vs = Got ss ↔ vs = VString <$> ss.
Proof.
  split; [|intros ->; apply stringsFrom_fmap].
  revert i ss. induction vs as [|v vs IH]; intros i ss; simpl.
  - by intros [= <-].
  - destruct v as [| | |x|]; try done.
    destruct (stringsFrom (S i) vs) as [ss0| |] eqn:Hrest; [|done..].
    intros [= <-]. rewrite fmap_cons. f_equal. by eapply IH.
Qed.

Lemma stringsFrom_no_panic (i : nat) (vs : list value) : stringsFrom i vs ≠ GetPanic.
Proof.
  revert i. induction vs as [|v vs IH]; intros i; simpl; [done|].
  destruct v; try done. specialize (IH (S i)). by destruct (stringsFrom (S i) vs).
Qed.

Lemma GetStrings_Got (m : gmap string value) (a : Argument) (ss : list string) :
  GetStrings m a = Got ss ↔ m !! Dest a = Some (VSlice (VString <$> ss)).
Proof.
  unfold GetStrings, MustGet, Namespace.Get.
  destruct (m !! Dest a) as [v|]; [|done].
  destruct v as [| | | |vs]; try done.
  rewrite stringsFrom_Got. split; [by intros ->|by intros [= ->]].
Qed.

(** X15: [GetStrings] returns a list of strings exactly when the key of
    the argument holds a sequence whose elements are all strings, and then
    returns these strings in order; it panics (through [MustGet]) exactly
    when the key is absent, and fails with an error for a value that is
    not a sequence, such as the single value an arity-one store writes. *)
Theorem GetStrings_reads_string_sequences (m : gmap string value) (a : Argument) :
  (∀ ss, GetStrings m a = Got ss ↔ m !! Dest a = Some (VSlice (VString <$> ss))) ∧
  (GetStrings m a = GetPanic ↔ m !! Dest a = None) ∧
  (∀ x, m !! Dest a = Some (VString x) →
        GetStrings m a = GetError (NotASlice (VString x))) ∧
  (∀ ss, MustGetStrings m a = Got ss ↔ GetStrings m a = Got ss).
Proof.
  split; [intros ss; apply GetStrings_Got|]. split; [|split].
  - unfold GetStrings, MustGet, Namespace.Get.
    destruct (m !! Dest a) as [v|]; [|done].
    split; [|done]. destruct v as [| | | |vs]; try done.
    intros H. by apply stringsFrom_no_panic in H.
  - intros x Hx. unfold GetStrings, MustGet, Namespace.Get. by rewrite Hx.
  - intros ss. unfold MustGetStrings. by destruct (GetStrings m a).
Qed.

Lemma scanValues_unnamed_head (p : ArgumentParser) (tok : string) (rest : list string) :
  Optionals p !! tok = None →
  take (scanValues p (tok :: rest)) (tok :: rest) = tok :: take (scanValues p rest) rest.
Proof.
  intros Hn. simpl. unfold isNamed.
  rewrite bool_decide_eq_false_2; [done|]. rewrite Hn. by intros [? ?].
Qed.

Lemma handle_variadic (T : ActionTable) (p : ArgumentParser) (a : Argument)
    (s s1 : parsingState) (v : string) (vals : list string) :
  Nargs a = ZeroOrMore ∨ Nargs a = OneOrMore →
  getArgs p a s = (Ret (v :: vals), s1) →
  handle T p a s =
    match vals with
    | [] => handleOne T a s1 v
    | _ => handleAll T a s1 (v :: vals)
    end.
Proof.
  intros Hn Hget. unfold handle. rewrite Hget.
  destruct Hn as [Hz|Hz]; rewrite Hz; by destruct vals.
Qed.

(** X16: the tokens a variadic store argument with the default converter
    takes come back from [GetStrings] as they were: when its key is absent
    and the token under the cursor is not an option string, [handle]
    succeeds, passes the maximal run of value tokens, and [GetStrings]
    then returns that run. *)
Theorem variadic_strings_round_trip (T : ActionTable) (p : ArgumentParser)
    (a : Argument) (s : parsingState) (tok : string) (rest : list string) :
  Action a = Store →
  Choices a = None →
  Type_ a = Conv.String →
  Nargs a = ZeroOrMore ∨ Nargs a = OneOrMore →
  ns s !! Dest a = None →
  remainder s = tok :: rest →
  Optionals p !! tok = None →
  ∃ s',
    handle T p a s = (Ret tt, s') ∧
    remainder s = (tok :: take (scanValues p rest) rest) ++ remainder s' ∧
    GetStrings (ns s') a = Got (tok :: take (scanValues p rest) rest).
Proof.
  intros Hact Hc Ht Hn Habs Hrem Htok.
  set (more := take (scanValues p rest) rest).
  set (s1 := with_argi s (argi s + length (tok :: more))).
  assert (Hget : getArgs p a s = (Ret (tok :: more), s1)).
  { rewrite getArgs_run.
    - rewrite Hrem, scanValues_unnamed_head by done. unfold s1, more.
      do 3 f_equal. simpl. rewrite length_take_scanValues.
      unfold isNamed. rewrite bool_decide_eq_false_2; [done|].
      rewrite Htok. by intros [? ?].
    - destruct Hn as [?|?]; [by left|right]. split; [done|]. by rewrite Hrem. }
  assert (Hslice : getArgValueForNS a (VString <$> tok :: more) =
                   VSlice (VString <$> tok :: more)).
  { unfold getArgValueForNS. rewrite fmap_cons.
    destruct Hn as [Hz|Hz]; rewrite Hz; by destruct more. }
  assert (Hrun : runAction T a s1 (VString <$> tok :: more) =
            (Ret tt, with_ns s1 (<[Dest a := VSlice (VString <$> tok :: more)]> (ns s)))).
  { unfold runAction. change (ns s1) with (ns s).
    by rewrite (Store_absent T a (ns s) _ Hact Habs), Hslice. }
  exists (with_ns s1 (<[Dest a := VSlice (VString <$> tok :: more)]> (ns s))).
  split; [|split].
  - rewrite (handle_variadic T p a s s1 tok more Hn Hget).
    destruct more as [|t2 more'] eqn:Hmore.
    + unfold handleOne, createValue. rewrite Hc, Ht. exact Hrun.
    + unfold handleAll. rewrite createValues_strings by done. exact Hrun.
  - unfold remainder in *. cbn [s1 with_ns with_argi args argi].
    rewrite <- drop_drop, Hrem. cbn [length drop app]. f_equal. unfold more.
    by rewrite length_take_scanValues, take_drop.
  - apply GetStrings_Got. simpl. by rewrite lookup_insert_eq.
Qed.

Lemma variadic_strings_round_trip_witness :
  ∃ s',
    handle funcActions flagParser flagArg
      {| args := ["--flag"; "a"; "b"; "--other"]; argi := 1; ns := ∅; posi := 0 |} =
      (Ret tt, s') ∧
    GetStrings (ns s') flagArg = Got ["a"; "b"].
Proof.
  destruct (variadic_strings_round_trip funcActions flagParser flagArg
    {| args := ["--flag"; "a"; "b"; "--other"]; argi := 1; ns := ∅; posi := 0 |}
    "a" ["b"; "--other"] eq_refl eq_refl eq_refl (or_introl eq_refl)
    (lookup_empty _) eq_refl ltac:(vm_compute; reflexivity))
    as (s' & Hh & _ & Hg).
  exists s'. split; [exact Hh|exact Hg].
Defined.

(** ** Positional arguments *)

Lemma positional_step (T : ActionTable) (p : ArgumentParser) (s : parsingState)
    (t : string) (a : Argument) :
  args s !! argi s = Some t →
  Optionals p !! t = None →
  Positionals p !! posi s = Some a →
  plainArgument a →
  ns s !! Dest a = None →
  parseToken T p s t =
    (Ret tt, {| args := args s; argi := argi s + 1;
                ns := <[Dest a := VString t]> (ns s); posi := posi s + 1 |}).
Proof.
  intros Ht Hun Hpos (Hact & Hn & Hc & Hty) Habs.
  unfold parseToken. rewrite Hun, Hpos.
  assert (Hrem : remainder (with_posi s (posi s + 1)) = t :: drop (S (argi s)) (args s)).
  { unfold remainder. simpl. by apply drop_S. }
  unfold handle. rewrite getArgs_exactly by (rewrite ?Hrem, Hn; simpl; lia).
  rewrite Hn, Hrem. simpl. unfold handleAll.
  rewrite createValues_strings by done. simpl.
  unfold runAction. simpl. rewrite (Store_absent T a (ns s) _ Hact Habs).
  unfold getArgValueForNS. rewrite Hn. done.
Qed.

(** The main loop over as many tokens as positional arguments are left. *)
Lemma parseLoop_positionals (T : ActionTable) (p : ArgumentParser) (toks : list string) :
  ∀ (pos : list Argument) (more : list string) (s : parsingState),
    drop (argi s) (args s) = toks ++ more →
    drop (posi s) (Positionals p) = pos →
    length toks = length pos →
    Forall (λ t, Optionals p !! t = None) toks →
    Forall plainArgument pos →
    NoDup (Dest <$> pos) →
    (∀ a, a ∈ pos → ns s !! Dest a = None) →
    ∀ fuel,
      parseLoop T p (length toks + fuel) s =
      parseLoop T p fuel
        {| args := args s; argi := argi s + length toks;
           ns := list_to_map (zip (Dest <$> pos) (VString <$> toks)) ∪ ns s;
           posi := posi s + length toks |}.
Proof.
  induction toks as [|t toks IH]; intros pos more s Hargs Hpos Hlen Hun Hplain Hnd Habs fuel.
  - destruct pos; [|done]. simpl. rewrite !Nat.add_0_r, (left_id_L ∅ (∪)). by destruct s.
  - destruct pos as [|a pos]; [done|].
    apply Forall_cons in Hun as [Ht Hun]. apply Forall_cons in Hplain as [Ha Hplain].
    rewrite fmap_cons in Hnd. apply NoDup_cons in Hnd as [Hfresh Hnd].
    assert (Htok : args s !! argi s = Some t).
    { rewrite <- (Nat.add_0_r (argi s)), <- lookup_drop, Hargs. done. }
    assert (Hposa : Positionals p !! posi s = Some a).
    { rewrite <- (Nat.add_0_r (posi s)), <- lookup_drop, Hpos. done. }
    change (length (t :: toks) + fuel)%nat with (S (length toks + fuel)).
    cbn [parseLoop]. rewrite Htok.
    rewrite (positional_step T p s t a Htok Ht Hposa Ha) by (apply Habs; by left).
    rewrite (IH pos more); simpl.
    + f_equal. f_equal; [lia| |lia].
      rewrite <- insert_union_r; [by rewrite insert_union_l|].
      apply not_elem_of_list_to_map_1. intros Hin. apply Hfresh.
      rewrite fst_zip in Hin; [done|]. rewrite !length_fmap. simpl in Hlen. lia.
    + by rewrite <- drop_drop, Hargs.
    + by rewrite <- drop_drop, Hpos.
    + simpl in Hlen. lia.
    + done.
    + done.
    + done.
    + intros b Hb. rewrite lookup_insert_ne; [apply Habs; by right|].
      intros Heq. apply Hfresh. rewrite Heq. by apply list_elem_of_fmap_2.
Qed.

Lemma getOptionals_range_empty (order : list string) (acc : list Argument)
    (already : list nat) :
  getOptionals_range ∅ order acc already = acc.
Proof.
  induction order as [|k order IH]; simpl; [done|]. by rewrite lookup_empty.
Qed.

Lemma resolveArgs_all_present (T : ActionTable) (l : list Argument)
    (m : gmap string value) :
  (∀ a, a ∈ l → is_Some (m !! Dest a)) → resolveArgs T l m = (Ret tt, m).
Proof.
  induction l as [|a l IH]; intros Hall; simpl; [done|].
  unfold resolveArg, Namespace.Get. destruct (Hall a ltac:(left)) as [v ->].
  apply IH. intros b Hb. apply Hall. by right.
Qed.

(** X17: with no named arguments declared, as many tokens as there are
    plain positional arguments with distinct keys are given to them in
    declaration order: the parse returns the mapping from the key of the
    i-th positional argument to the i-th token. *)
Theorem positionals_filled_in_declaration_order (T : ActionTable) (p : ArgumentParser)
    (order tokens : list string) :
  Optionals p = ∅ →
  Forall plainArgument (Positionals p) →
  NoDup (Dest <$> Positionals p) →
  length tokens = length (Positionals p) →
  ParseArgs T p order tokens =
    Some (Ret (list_to_map (zip (Dest <$> Positionals p) (VString <$> tokens)))).
Proof.
  intros Hopt Hplain Hnd Hlen.
  pose proof (parseLoop_positionals T p tokens (Positionals p) [] (init tokens)) as Hloop.
  simpl in Hloop. rewrite app_nil_r in Hloop.
  specialize (Hloop eq_refl eq_refl Hlen).
  rewrite (right_id_L ∅ (∪)) in Hloop.
  unfold ParseArgs, parse, parseFrom, parseFuel. rewrite Hloop.
  - set (m := list_to_map _).
    assert (Hend : ∀ fuel, parseLoop T p fuel
               {| args := tokens; argi := length tokens; ns := m; posi := length tokens |} =
             Some (Ret tt, {| args := tokens; argi := length tokens; ns := m;
                              posi := length tokens |})).
    { intros fuel. destruct fuel; simpl; by rewrite lookup_ge_None_2. }
    rewrite Hend. simpl.
    unfold allArgs, getOptionals. rewrite Hopt, getOptionals_range_empty. simpl.
    rewrite resolveArgs_all_present; [done|].
    intros a Ha. unfold m. apply list_elem_of_lookup_1 in Ha as [i Hi].
    destruct (lookup_lt_is_Some_2 tokens i) as [t Ht].
    { rewrite Hlen. by eapply lookup_lt_Some. }
    exists (VString t). apply elem_of_list_to_map.
    + rewrite fst_zip; [done|]. rewrite !length_fmap. lia.
    + apply list_elem_of_lookup_2 with i. rewrite lookup_zip_with.
      by rewrite !list_lookup_fmap, Hi, Ht.
  - rewrite Hopt. apply Forall_forall. intros. apply lookup_empty.
  - done.
  - done.
  - intros a _. apply lookup_empty.
Qed.

Lemma positionals_filled_in_declaration_order_witness :
  ParseArgs funcActions copyParser [] ["a.txt"; "b.txt"] =
    Some (Ret (list_to_map [("source", VString "a.txt"); ("target", VString "b.txt")])).
Proof.
  apply (positionals_filled_in_declaration_order funcActions copyParser [] ["a.txt"; "b.txt"]).
  - reflexivity.
  - repeat constructor.
  - simpl. repeat constructor; set_solver.
  - reflexivity.
Defined.

(** X18: in the main loop, a token that is not an option string, met when
    no positional argument is left, fails the parse with "unexpected
    argument", naming that token, and leaves the state as it is, whatever
    the arguments declared. In particular, with plain positional arguments
    (store, arity one, default converter, no choices) of distinct keys and
    tokens none of which is an option string, the token that follows those
    given to the positional arguments fails the parse so, after each
    positional argument got its token. *)
Theorem surplus_token_is_unexpected (T : ActionTable) (p : ArgumentParser)
    (extra : string) :
  Optionals p !! extra = None →
  (∀ s fuel,
     args s !! argi s = Some extra →
     (length (Positionals p) ≤ posi s)%nat →
     parseLoop T p (S fuel) s = Some (Fail (UnexpectedArgument extra), s)) ∧
  (∀ order toks more,
     Forall (λ t, Optionals p !! t = None) toks →
     Forall plainArgument (Positionals p) →
     NoDup (Dest <$> Positionals p) →
     length toks = length (Positionals p) →
     parse T p order (toks ++ extra :: more) =
       Some (Fail (UnexpectedArgument extra),
             {| args := toks ++ extra :: more; argi := length toks;
                ns := list_to_map (zip (Dest <$> Positionals p) (VString <$> toks));
                posi := length toks |})).
Proof.
  intros Hextra.
  assert (Hstep : ∀ s fuel,
            args s !! argi s = Some extra →
            (length (Positionals p) ≤ posi s)%nat →
            parseLoop T p (S fuel) s = Some (Fail (UnexpectedArgument extra), s)).
  { intros s fuel Htok Hpos. simpl. rewrite Htok. unfold parseToken.
    rewrite Hextra. by rewrite lookup_ge_None_2 by lia. }
  split; [exact Hstep|].
  intros order toks more Hun Hplain Hnd Hlen.
  pose proof (parseLoop_positionals T p toks (Positionals p) (extra :: more)
                (init (toks ++ extra :: more))) as Hloop.
  simpl in Hloop. specialize (Hloop eq_refl eq_refl Hlen Hun Hplain Hnd).
  assert (Hempty : ∀ a : Argument, a ∈ Positionals p → (∅ : gmap string value) !! Dest a = None)
    by (intros; apply lookup_empty).
  specialize (Hloop Hempty).
  unfold parse, parseFrom, parseFuel.
  rewrite length_app. simpl.
  replace (length toks + S (length more) + length (Positionals p))%nat
    with (length toks + S (length more + length (Positionals p)))%nat by lia.
  rewrite Hloop, (right_id_L ∅ (∪)).
  rewrite Hstep; [done| |simpl; lia].
  simpl. rewrite (lookup_app_r toks) by lia. by rewrite Nat.sub_diag.
Qed.

Lemma surplus_token_is_unexpected_witness :
  parse funcActions copyParser [] (["a.txt"; "b.txt"] ++ "c.txt" :: ["d.txt"]) =
    Some (Fail (UnexpectedArgument "c.txt"),
          {| args := ["a.txt"; "b.txt"; "c.txt"; "d.txt"]; argi := 2;
             ns := list_to_map [("source", VString "a.txt"); ("target", VString "b.txt")];
             posi := 2 |}).
Proof.
  apply (proj2 (surplus_token_is_unexpected funcActions copyParser "c.txt" (lookup_empty _))
           [] ["a.txt"; "b.txt"] ["d.txt"]).
  - repeat constructor.
  - repeat constructor.
  - simpl. repeat constructor; set_solver.
  - reflexivity.
Defined.

(** ** The resolution pass and a first parse *)

Lemma resolveArgs_nothing_to_do (T : ActionTable) (l : list Argument)
    (m : gmap string value) :
  (∀ a, a ∈ l → is_Some (m !! Dest a) ∨ Required a = false ∧ Default a = VNil) →
  resolveArgs T l m = (Ret tt, m).
Proof.
  induction l as [|a l IH]; intros Hall; simpl; [done|].
  assert (resolveArg T a m = (Ret tt, m)) as ->.
  { unfold resolveArg, Namespace.Get.
    destruct (Hall a ltac:(left)) as [[v ->]|[-> ->]]; [done|].
    by destruct (m !! Dest a). }
  apply IH. intros b Hb. apply Hall. by right.
Qed.

(** X19: the resolution pass settles in one go: run again on the mapping
    it returned, it changes nothing and succeeds. *)
Theorem resolveArgs_idempotent (T : ActionTable) (l : list Argument)
    (m m' : gmap string value) :
  resolveArgs T l m = (Ret tt, m') →
  resolveArgs T l m' = (Ret tt, m').
Proof.
  intros Hres. apply resolveArgs_nothing_to_do. intros a Ha.
  destruct (resolveArgs_present T l m m' Hres) as [_ Hpresent].
  destruct (Required a) eqn:Hr; [left; apply Hpresent; [done|by left]|].
  destruct (Default a) eqn:Hd; [by right|..];
    (left; apply Hpresent; [done|right; congruence]).
Qed.

Lemma resolveArgs_idempotent_witness :
  resolveArgs funcActions [logfileArg] (<["logfile" := VString "app.log"]> ∅) =
    (Ret tt, <["logfile" := VString "app.log"]> ∅).
Proof.
  apply (resolveArgs_idempotent funcActions [logfileArg] ∅). vm_compute. reflexivity.
Defined.

Lemma parseLoop_step (T : ActionTable) (p : ArgumentParser) (fuel : nat)
    (s s1 : parsingState) (tok : string) :
  args s !! argi s = Some tok →
  parseToken T p s tok = (Ret tt, s1) →
  parseLoop T p (S fuel) s = parseLoop T p fuel s1.
Proof. intros Htok Hstep. simpl. by rewrite Htok, Hstep. Qed.

Lemma parseLoop_end (T : ActionTable) (p : ArgumentParser) (fuel : nat)
    (s : parsingState) :
  args s !! argi s = None → parseLoop T p fuel s = Some (Ret tt, s).
Proof. intros Hend. destruct fuel; simpl; by rewrite Hend. Qed.

Lemma named_step (T : ActionTable) (p : ArgumentParser) (s : parsingState)
    (k v : string) (a : Argument) :
  Optionals p !! k = Some a →
  plainArgument a →
  args s !! (argi s + 1)%nat = Some v →
  ns s !! Dest a = None →
  parseToken T p s k =
    (Ret tt, {| args := args s; argi := argi s + 1 + 1;
                ns := <[Dest a := VString v]> (ns s); posi := posi s |}).
Proof.
  intros Hk (Hact & Hn & Hc & Hty) Hv Habs.
  unfold parseToken. rewrite Hk.
  assert (Hrem : remainder (with_argi s (argi s + 1)) = v :: drop (S (argi s + 1)) (args s)).
  { unfold remainder. simpl. by apply drop_S. }
  unfold handle. rewrite getArgs_exactly by (rewrite ?Hrem, Hn; simpl; lia).
  rewrite Hn, Hrem. simpl. unfold handleAll.
  rewrite createValues_strings by done. simpl.
  unfold runAction. simpl. rewrite (Store_absent T a (ns s) _ Hact Habs).
  unfold getArgValueForNS. rewrite Hn. done.
Qed.

(** X20: in [parse], a plain named argument (store, arity one, default
    converter, no choices) whose key is still unset, met with a token after
    its option string, gets exactly that token under its key: the turn of
    the main loop moves the cursor past both tokens and changes nothing
    else, whatever parser the argument belongs to, whatever its default
    and whether or not it is required, and whatever the value token looks
    like (an option string included). When every argument of the parser
    either has that key or is neither required nor given a default, the
    parse of the two tokens returns the mapping from the key to the token
    alone. *)
Theorem named_value_is_stored (T : ActionTable) (p : ArgumentParser) (a : Argument)
    (k v : string) :
  Optionals p !! k = Some a →
  plainArgument a →
  (∀ s fuel,
     args s !! argi s = Some k →
     args s !! (argi s + 1)%nat = Some v →
     ns s !! Dest a = None →
     parseLoop T p (S fuel) s =
       parseLoop T p fuel
         {| args := args s; argi := argi s + 1 + 1;
            ns := <[Dest a := VString v]> (ns s); posi := posi s |}) ∧
  (∀ order,
     (∀ b, declaredArgument p b →
           Dest b = Dest a ∨ Required b = false ∧ Default b = VNil) →
     parse T p order [k; v] =
       Some (Ret tt, {| args := [k; v]; argi := 2;
                        ns := {[Dest a := VString v]}; posi := 0 |})).
Proof.
  intros Hk Hplain.
  assert (Hstep : ∀ s fuel,
            args s !! argi s = Some k →
            args s !! (argi s + 1)%nat = Some v →
            ns s !! Dest a = None →
            parseLoop T p (S fuel) s =
              parseLoop T p fuel
                {| args := args s; argi := argi s + 1 + 1;
                   ns := <[Dest a := VString v]> (ns s); posi := posi s |}).
  { intros s fuel Htok Hv Habs. apply (parseLoop_step T p fuel s _ k Htok).
    by apply named_step. }
  split; [exact Hstep|].
  intros order Hothers.
  unfold parse, parseFrom, parseFuel.
  change (length [k; v] + length (Positionals p))%nat
    with (S (1 + length (Positionals p))).
  rewrite (Hstep (init [k; v])) by done.
  rewrite parseLoop_end by done. simpl. rewrite insert_empty.
  rewrite resolveArgs_nothing_to_do; [done|].
  intros b Hb.
  assert (Hdecl : declaredArgument p b).
  { unfold allArgs, getOptionals in Hb. apply elem_of_app in Hb as [Hb|Hb]; [|by right].
    apply getOptionals_range_elem in Hb as [Hb|Hb]; [by apply elem_of_nil in Hb|by left]. }
  destruct (Hothers b Hdecl) as [Heq|?]; [left|by right].
  rewrite Heq, lookup_singleton_eq. by eexists.
Qed.

Lemma named_value_is_stored_witness :
  parse funcActions countParser ["-c"; "--count"] ["--count"; "--count"] =
    Some (Ret tt, {| args := ["--count"; "--count"]; argi := 2;
                     ns := {["count" := VString "--count"]}; posi := 0 |}).
Proof.
  apply (proj2 (named_value_is_stored funcActions countParser countArg "--count" "--count"
                  eq_refl ltac:(repeat split))).
  intros b [[op Hop]|Hb]; [|by apply elem_of_nil in Hb].
  left. unfold countParser in Hop. simpl in Hop.
  apply lookup_insert_Some in Hop as [[_ <-]|[_ Hop]]; [done|].
  apply lookup_insert_Some in Hop as [[_ <-]|[_ Hop]]; [done|].
  by rewrite lookup_empty in Hop.
Defined.
